(** * Fog-of-war grid engine and overlay renderer: a shallow embedding

    Sources embedded here:
    - [src/lib/fogGrid.js]: the cell codec ([getCellKey], [getCellBounds]),
      the reveal engine ([getRevealCells], [revealAt], [loadExploredCells],
      [saveExploredCells]) and the coverage estimator ([getCoverage]);
    - the [FogCanvasLayer._update] repaint pass of the overlay component.

    Modelling conventions.
    - A JavaScript number is a rational or one of NaN, +Infinity, -Infinity
      (type [num]).  Arithmetic on finite values is exact: binary64 rounding
      is not modelled, and neither is the sign of zero (a zero divisor counts
      as +0).
    - [Math.cos] is a library function outside the repository.  The composite
      [lat => Math.cos((lat * Math.PI) / 180)] is a parameter [cos_deg] of
      the development; every theorem holds for every such function.
    - A cell key is the very string the program builds.
    - A JavaScript [Set] of strings is the list of its elements in insertion
      order. *)

From Stdlib Require Import ZArith QArith Qround Qabs Qreduction.
From Stdlib Require Import List String Ascii Bool Lia Lqa Psatz.
Import ListNotations.

Set Implicit Arguments.

(** ** JavaScript numbers *)

Module JsNum.

Inductive num : Type :=
| Fin (q : Q)
| PInf
| NInf
| NaN.

(** Equality of the values two numbers denote ([Q] has several fractions for
    one rational). *)
Definition num_eq (x y : num) : Prop :=
  match x, y with
  | Fin p, Fin q => p == q
  | PInf, PInf | NInf, NInf | NaN, NaN => True
  | _, _ => False
  end.

Definition nneg (x : num) : num :=
  match x with
  | Fin q => Fin (- q)
  | PInf => NInf
  | NInf => PInf
  | NaN => NaN
  end.

(** [x + y] *)
Definition nadd (x y : num) : num :=
  match x, y with
  | NaN, _ | _, NaN => NaN
  | Fin p, Fin q => Fin (p + q)
  | PInf, NInf | NInf, PInf => NaN
  | PInf, _ | _, PInf => PInf
  | NInf, _ | _, NInf => NInf
  end.

(** [x - y] *)
Definition nsub (x y : num) : num := nadd x (nneg y).

(** An infinity of the sign of [q], NaN for zero: the product of an infinity
    and a finite number. *)
Definition inf_times (pos : bool) (q : Q) : num :=
  match q ?= 0 with
  | Eq => NaN
  | Gt => if pos then PInf else NInf
  | Lt => if pos then NInf else PInf
  end.

(** [x * y] *)
Definition nmul (x y : num) : num :=
  match x, y with
  | NaN, _ | _, NaN => NaN
  | Fin p, Fin q => Fin (p * q)
  | Fin p, PInf | PInf, Fin p => inf_times true p
  | Fin p, NInf | NInf, Fin p => inf_times false p
  | PInf, PInf | NInf, NInf => PInf
  | PInf, NInf | NInf, PInf => NInf
  end.

(** [x / y]; a zero divisor counts as +0. *)
Definition ndiv (x y : num) : num :=
  match x, y with
  | NaN, _ | _, NaN => NaN
  | Fin p, Fin q =>
      if Qeq_bool q 0 then inf_times true p else Fin (p / q)
  | Fin _, _ => Fin 0
  | PInf, Fin q => if Qle_bool 0 q then PInf else NInf
  | NInf, Fin q => if Qle_bool 0 q then NInf else PInf
  | _, _ => NaN
  end.

(** [x <= y] and [x < y]: false as soon as one side is NaN. *)
Definition nle (x y : num) : bool :=
  match x, y with
  | NaN, _ | _, NaN => false
  | Fin p, Fin q => Qle_bool p q
  | NInf, _ | _, PInf => true
  | _, _ => false
  end.

Definition nlt (x y : num) : bool :=
  match x, y with
  | NaN, _ | _, NaN => false
  | Fin p, Fin q => negb (Qle_bool q p)
  | PInf, _ | _, NInf => false
  | _, _ => true
  end.

(** [x >= y] and [x > y] *)
Definition nge (x y : num) : bool := nle y x.
Definition ngt (x y : num) : bool := nlt y x.

(** [x === y] on numbers *)
Definition strict_eq (x y : num) : bool :=
  match x, y with
  | Fin p, Fin q => Qeq_bool p q
  | PInf, PInf | NInf, NInf => true
  | _, _ => false
  end.

Definition Math_floor (x : num) : num :=
  match x with Fin q => Fin (inject_Z (Qfloor q)) | _ => x end.

Definition Math_ceil (x : num) : num :=
  match x with Fin q => Fin (inject_Z (Qceiling q)) | _ => x end.

(** [Math.round] rounds to the nearest integer, a tie towards +Infinity. *)
Definition Math_round (x : num) : num :=
  match x with Fin q => Fin (inject_Z (Qfloor (q + (1 # 2)))) | _ => x end.

Definition Math_min (x y : num) : num :=
  match x, y with
  | NaN, _ | _, NaN => NaN
  | _, _ => if nle x y then x else y
  end.

Definition Math_max (x y : num) : num :=
  match x, y with
  | NaN, _ | _, NaN => NaN
  | _, _ => if nle x y then y else x
  end.

End JsNum.
Import JsNum.

Declare Scope num_scope.
Delimit Scope num_scope with num.
Bind Scope num_scope with num.
Infix "+" := nadd : num_scope.
Infix "-" := nsub : num_scope.
Infix "*" := nmul : num_scope.
Infix "/" := ndiv : num_scope.
Infix "<=?" := nle : num_scope.
Infix "<?" := nlt : num_scope.
Infix ">=?" := nge (at level 70) : num_scope.
Infix ">?" := ngt (at level 70) : num_scope.
Infix "===" := strict_eq (at level 70) : num_scope.

(** ** Strings: [Number.prototype.toFixed], [parseFloat], [String.prototype.split] *)

Module JsString.

Local Open Scope string_scope.
Local Open Scope Z_scope.

Definition digit_char (d : Z) : ascii :=
  match d with
  | 0 => "0" | 1 => "1" | 2 => "2" | 3 => "3" | 4 => "4"
  | 5 => "5" | 6 => "6" | 7 => "7" | 8 => "8" | _ => "9"
  end%char.

(** The digits are the characters of codes 48 to 57. *)
Definition digit_of_char (c : ascii) : option Z :=
  let code := Z.of_nat (nat_of_ascii c) in
  if (48 <=? code) && (code <=? 57) then Some (code - 48) else None.

(** The decimal digits of [n >= 0], most significant first, in front of
    [acc]; [fuel + 1] digits at most. *)
Fixpoint digits_of (fuel : nat) (n : Z) (acc : string) : string :=
  let acc' := String (digit_char (n mod 10)) acc in
  match fuel with
  | O => acc'
  | S f => if n / 10 =? 0 then acc' else digits_of f (n / 10) acc'
  end.

Definition Z_to_string (n : Z) : string :=
  digits_of (Z.to_nat (Z.log2 n)) n "".

(** The [k] low-order decimal digits of [n], zero-padded, in front of [acc]. *)
Fixpoint pad_digits (k : nat) (n : Z) (acc : string) : string :=
  match k with
  | O => acc
  | S k' => pad_digits k' (n / 10) (String (digit_char (n mod 10)) acc)
  end.

(** [x.toFixed(f)]: let [n] be the integer nearest to [|x| * 10^f], the
    larger one on a tie; the digits of [n] with a point before the last [f].
    A negative [x] keeps its sign even when [n] is 0.  (From [10^21] on
    JavaScript prints exponent notation; no coordinate is that large, and
    the digits are printed here all the same.) *)
Definition toFixed (f : nat) (x : num) : string :=
  match x with
  | NaN => "NaN"
  | PInf => "Infinity"
  | NInf => "-Infinity"
  | Fin q =>
      let scale := 10 ^ Z.of_nat f in
      let n := Qfloor (Qabs q * inject_Z scale + (1 # 2)) in
      let body :=
        match f with
        | O => Z_to_string n
        | _ => Z_to_string (n / scale) ++ "." ++ pad_digits f (n mod scale) ""
        end in
      if Qle_bool 0 q then body else "-" ++ body
  end.

(** The longest run of decimal digits at the head of [s]: its value on top of
    [acc], its length on top of [cnt], and what follows it. *)
Fixpoint scan_digits (s : string) (acc : Z) (cnt : nat) : Z * nat * string :=
  match s with
  | String c s' =>
      match digit_of_char c with
      | Some d => scan_digits s' (10 * acc + d) (S cnt)
      | None => (acc, cnt, s)
      end
  | EmptyString => (acc, cnt, s)
  end.

Definition is_white (c : ascii) : bool :=
  match nat_of_ascii c with
  | 9%nat | 10%nat | 11%nat | 12%nat | 13%nat | 32%nat => true
  | _ => false
  end.

Fixpoint skip_white (s : string) : string :=
  match s with
  | String c s' => if is_white c then skip_white s' else s
  | EmptyString => s
  end.

Definition scan_sign (s : string) : bool * string :=
  match s with
  | String "-" r => (true, r)
  | String "+" r => (false, r)
  | _ => (false, s)
  end.

(** The exponent part [e±ddd] at the head of [s], 0 when there is none. *)
Definition scan_exponent (s : string) : Z :=
  match s with
  | String c r =>
      if (Ascii.eqb c "e" || Ascii.eqb c "E")%bool then
        let '(neg, r') := scan_sign r in
        let '(e, cnt, _) := scan_digits r' 0 0 in
        match cnt with
        | O => 0
        | _ => if neg then - e else e
        end
      else 0
  | EmptyString => 0
  end.

(** [parseFloat(s)]: the value of the longest prefix of [s], after leading
    white space, that is a decimal literal; NaN when there is none. *)
Definition parseFloat (input : string) : num :=
  let '(neg, s) := scan_sign (skip_white input) in
  if prefix "Infinity" s then (if neg then NInf else PInf)
  else
    let '(ip, n1, s1) := scan_digits s 0 0 in
    let '(fp, n2, s2) :=
      match s1 with
      | String "." r => scan_digits r 0 0
      | _ => (0, O, s1)
      end in
    match (n1 + n2)%nat with
    | O => NaN
    | _ =>
        let mant := (inject_Z ip + inject_Z fp / inject_Z (10 ^ Z.of_nat n2))%Q in
        let v := (mant * Qpower 10 (scan_exponent s2))%Q in
        Fin (if neg then - v else v)%Q
    end.

(** [parseFloat] of a value that may be [undefined] (a missing element of a
    destructured array): [undefined] is not a number. *)
Definition parseFloat_opt (s : option string) : num :=
  match s with
  | Some s => parseFloat s
  | None => NaN
  end.

(** [s.split(sep)] for a one-character separator. *)
Fixpoint split (sep : ascii) (s : string) : list string :=
  match s with
  | EmptyString => [""]
  | String c r =>
      if Ascii.eqb c sep then "" :: split sep r
      else
        match split sep r with
        | h :: t => String c h :: t
        | [] => [String c ""]
        end
  end.

End JsString.
Import JsString.

(** ** Exceptions, JSON values and the browser's [localStorage] *)

Module JsEnv.

Local Open Scope string_scope.

(** The outcome of an expression that may throw. *)
Inductive Exc (A : Type) : Type :=
| Ret (a : A)
| Throw.
Arguments Ret {A} a.
Arguments Throw {A}.

Definition bind {A B} (c : Exc A) (k : A -> Exc B) : Exc B :=
  match c with
  | Ret a => k a
  | Throw => Throw
  end.

(** [try { body } catch { handler }] *)
Definition try_catch {A} (body : Exc A) (handler : A) : A :=
  match body with
  | Ret a => a
  | Throw => handler
  end.

Notation "x <- c ;; k" := (bind c (fun x => k))
  (at level 61, c at next level, right associativity).

(** What [JSON.parse] returns. *)
#[local] Unset Elimination Schemes.
Inductive json : Type :=
| JNull
| JBool (b : bool)
| JNum (q : Q)
| JStr (s : string)
| JArr (items : list json)
| JObj (fields : list (string * json)).
#[local] Set Elimination Schemes.

(** SameValueZero, the equality of [Set]: primitives by value, arrays and
    objects by identity (two parsed ones are never the same object). *)
Definition same_value_zero (x y : json) : bool :=
  match x, y with
  | JNull, JNull => true
  | JBool a, JBool b => Bool.eqb a b
  | JNum p, JNum q => Qeq_bool p q
  | JStr s, JStr t => String.eqb s t
  | _, _ => false
  end.

Definition chars_of (s : string) : list json :=
  map (fun c => JStr (String c "")) (list_ascii_of_string s).

(** The items [new Set(v)] iterates over: [null] counts as no argument, arrays
    and strings are iterable, anything else throws a TypeError. *)
Definition iterate (v : json) : Exc (list json) :=
  match v with
  | JNull => Ret []
  | JArr items => Ret items
  | JStr s => Ret (chars_of s)
  | JBool _ | JNum _ | JObj _ => Throw
  end.

Definition add_value (s : list json) (v : json) : list json :=
  if existsb (same_value_zero v) s then s else (s ++ [v])%list.

(** [new Set(v)] on a parsed JSON value. *)
Definition new_Set (v : json) : Exc (list json) :=
  items <- iterate v ;; Ret (fold_left add_value items []).

(** The browser's [localStorage] and the trace of the [setItem] calls made on
    it.  Every access throws when the storage is unavailable; [setItem] throws
    when the value does not fit the quota. *)
Record World : Type := {
  ls_available : bool;
  ls_items : list (string * string);
  ls_quota : nat;
  ls_setItem_calls : list (string * string)
}.

Fixpoint lookup (k : string) (items : list (string * string)) : option string :=
  match items with
  | [] => None
  | (k', v) :: rest => if String.eqb k k' then Some v else lookup k rest
  end.

Fixpoint store (k v : string) (items : list (string * string))
  : list (string * string) :=
  match items with
  | [] => [(k, v)]
  | (k', v') :: rest =>
      if String.eqb k k' then (k, v) :: rest else (k', v') :: store k v rest
  end.

(** [localStorage.getItem(k)]: [null] (here [None]) for a missing key. *)
Definition getItem (k : string) (w : World) : Exc (option string) :=
  if ls_available w then Ret (lookup k (ls_items w)) else Throw.

(** [localStorage.setItem(k, v)]: the call is traced whether it succeeds or
    throws. *)
Definition setItem (k v : string) (w : World) : Exc unit * World :=
  let traced items :=
    {| ls_available := ls_available w;
       ls_items := items;
       ls_quota := ls_quota w;
       ls_setItem_calls := (ls_setItem_calls w ++ [(k, v)])%list |} in
  if (ls_available w && (String.length v <=? ls_quota w)%nat)%bool
  then (Ret tt, traced (store k v (ls_items w)))
  else (Throw, traced (ls_items w)).

(** [for (let i = lo; i <= hi; i++) body], threading the loop's state. *)
Fixpoint for_upto {S : Type} (n : nat) (i : Z) (body : Z -> S -> S) (s : S) : S :=
  match n with
  | O => s
  | Datatypes.S n' => for_upto n' (i + 1)%Z body (body i s)
  end.

Definition for_range {S : Type} (lo hi : Z) (body : Z -> S -> S) (s : S) : S :=
  for_upto (Z.to_nat (hi - lo + 1)) lo body s.

End JsEnv.
Import JsEnv.

(** ** The grid engine ([src/lib/fogGrid.js]) *)

Module FogGrid.

Local Open Scope string_scope.
Local Open Scope num_scope.

Definition of_Z (z : Z) : num := Fin (inject_Z z).

Definition CELL_SIZE_METERS : num := Fin 50.
Definition METERS_PER_DEG_LAT : num := Fin 111320.
Definition STORAGE_KEY : string := "uncover_explored_cells".
Definition REVEAL_RADIUS : Z := 2.

Definition CELL_SIZE_LAT : num := CELL_SIZE_METERS / METERS_PER_DEG_LAT.

(** The rectangle [getCellBounds] returns. *)
Record Bounds : Type := {
  south : num;
  north : num;
  west : num;
  east : num
}.

(** A [Set] of cell keys: its elements in insertion order. *)
Definition Set_has (cells : list string) (key : string) : bool :=
  existsb (String.eqb key) cells.

Definition Set_add (cells : list string) (key : string) : list string :=
  if Set_has cells key then cells else (cells ++ [key])%list.

Section Engine.

(** [cos_deg lat] stands for [Math.cos((lat * Math.PI) / 180)]. *)
Variable cos_deg : Q -> Q.
(** [JSON.stringify] on an array of strings, and [JSON.parse], which throws on
    text that is not JSON. *)
Variable JSON_stringify : list string -> string.
Variable JSON_parse : string -> Exc json.

(** The cosine sees the number, not the fraction that represents it. *)
Definition cos_of_degrees (lat : num) : num :=
  match lat with
  | Fin q => Fin (cos_deg (Qred q))
  | _ => NaN
  end.

Definition cellSizeLng (lat : num) : num :=
  CELL_SIZE_METERS / (METERS_PER_DEG_LAT * cos_of_degrees lat).

Definition getCellKey (lat lng : num) : string :=
  let cellLat := Math_floor (lat / CELL_SIZE_LAT) * CELL_SIZE_LAT in
  let cLng := cellSizeLng lat in
  let cellLng := Math_floor (lng / cLng) * cLng in
  toFixed 6 cellLat ++ "_" ++ toFixed 6 cellLng.

Definition getCellBounds (key : string) : Bounds :=
  let parts := split "_" key in
  let lat := parseFloat_opt (nth_error parts 0) in
  let lng := parseFloat_opt (nth_error parts 1) in
  let cLng := cellSizeLng lat in
  {| south := lat;
     north := lat + CELL_SIZE_LAT;
     west := lng;
     east := lng + cLng |}.

Definition getRevealCells (lat lng : num) : list string :=
  let cLng := cellSizeLng lat in
  for_range (- REVEAL_RADIUS) REVEAL_RADIUS (fun dy cells =>
    for_range (- REVEAL_RADIUS) REVEAL_RADIUS (fun dx cells =>
      if (dx * dx + dy * dy <=? REVEAL_RADIUS * REVEAL_RADIUS + 1)%Z then
        let cellLat := lat + of_Z dy * CELL_SIZE_LAT in
        let cellLng := lng + of_Z dx * cLng in
        (cells ++ [getCellKey cellLat cellLng])%list
      else cells) cells) [].

Definition loadExploredCells (w : World) : list json :=
  try_catch
    (data <- getItem STORAGE_KEY w ;;
     match data with
     | Some (String _ _ as text) => v <- JSON_parse text ;; new_Set v
     | Some EmptyString | None => Ret []
     end)
    [].

Definition saveExploredCells (cells : list string) (w : World) : World :=
  snd (setItem STORAGE_KEY (JSON_stringify cells) w).

(** One turn of the loop of [revealAt]: the set and the [changed] flag. *)
Definition reveal_step (st : list string * bool) (key : string)
  : list string * bool :=
  let '(exploredCells, changed) := st in
  if negb (Set_has exploredCells key)
  then (Set_add exploredCells key, true)
  else (exploredCells, changed).

(** [revealAt] updates the set it is given in place: the result carries the
    returned flag, the set after the call and the storage after the call. *)
Definition revealAt (lat lng : num) (exploredCells : list string) (w : World)
  : bool * list string * World :=
  let newCells := getRevealCells lat lng in
  let '(exploredCells, changed) :=
    fold_left reveal_step newCells (exploredCells, false) in
  let w := if changed then saveExploredCells exploredCells w else w in
  (changed, exploredCells, w).

(** [totalCells] of [getCoverage]. *)
Definition coverage_totalCells (centerLat radiusMeters : num) : num :=
  let latRange := radiusMeters / METERS_PER_DEG_LAT in
  let lngRange :=
    radiusMeters / (METERS_PER_DEG_LAT * cos_of_degrees centerLat) in
  let cLng := cellSizeLng centerLat in
  let latSteps := Math_ceil ((latRange * Fin 2) / CELL_SIZE_LAT) in
  let lngSteps := Math_ceil ((lngRange * Fin 2) / cLng) in
  latSteps * lngSteps.

(** The test of the counting loop of [getCoverage] on one key. *)
Definition coverage_inArea (centerLat centerLng radiusMeters : num)
  (key : string) : bool :=
  let latRange := radiusMeters / METERS_PER_DEG_LAT in
  let lngRange :=
    radiusMeters / (METERS_PER_DEG_LAT * cos_of_degrees centerLat) in
  let parts := split "_" key in
  let lat := parseFloat_opt (nth_error parts 0) in
  let lng := parseFloat_opt (nth_error parts 1) in
  (lat >=? centerLat - latRange) && (lat <=? centerLat + latRange) &&
  (lng >=? centerLng - lngRange) && (lng <=? centerLng + lngRange).

(** [exploredInArea] of [getCoverage] when its loop ends. *)
Definition coverage_exploredInArea (exploredCells : list string)
  (centerLat centerLng radiusMeters : num) : Z :=
  fold_left
    (fun exploredInArea key =>
       if coverage_inArea centerLat centerLng radiusMeters key
       then (exploredInArea + 1)%Z else exploredInArea)
    exploredCells 0%Z.

(** [radiusMeters] is optional and defaults to 1000. *)
Definition getCoverage (exploredCells : list string)
  (centerLat centerLng : num) (radiusMeters : option num) : num :=
  let radiusMeters :=
    match radiusMeters with Some r => r | None => Fin 1000 end in
  let totalCells := coverage_totalCells centerLat radiusMeters in
  if totalCells === Fin 0 then Fin 0
  else
    let exploredInArea :=
      coverage_exploredInArea exploredCells centerLat centerLng radiusMeters in
    Math_min (Fin 100)
      (Math_round ((of_Z exploredInArea / totalCells) * Fin 100)).

End Engine.

End FogGrid.
Import FogGrid.

(** ** The overlay renderer ([FogCanvasLayer]) *)

Module FogOverlay.

Local Open Scope string_scope.
Local Open Scope num_scope.

Record Point : Type := { px : num; py : num }.

(** [map.getBounds()] *)
Record LatLngBounds : Type := {
  getSouth : num;
  getNorth : num;
  getWest : num;
  getEast : num
}.

(** What [_update] reads from the Leaflet map. *)
Record MapView : Type := {
  getSize : Point;
  getBounds : LatLngBounds;
  (** [map.containerPointToLayerPoint([0, 0])] *)
  layerOrigin : Point;
  (** [map.latLngToContainerPoint([lat, lng])] *)
  latLngToContainerPoint : num -> num -> Point
}.

(** The layer's fields: [_map], whether [_canvas] is set, [_exploredCells]. *)
Record Layer : Type := {
  _map : option MapView;
  _canvas : bool;
  _exploredCells : list string
}.

(** The writes [_update] makes to the canvas and its 2D context, in order. *)
Inductive CanvasOp : Type :=
| SetCanvasSize (width height : num)
| SetStyleSize (width height : num)
| SetPosition (p : Point)
| SetTransform (a b c d e f : num)
| SetFillColor (color : string)
| SetComposite (mode : string)
| SetFillRadialGradient (x0 y0 r0 x1 y1 r1 : num) (stops : list (num * string))
| FillRect (x y w h : num).

Definition is_gradient_erase (op : CanvasOp) : bool :=
  match op with
  | SetFillRadialGradient _ _ _ _ _ _ _ => true
  | _ => false
  end.

Definition MARGIN : num := Fin (5 # 1000).

Section Renderer.

Variable cos_deg : Q -> Q.

(** The test that makes the loop [continue]. *)
Definition outsideViewport (cell : Bounds) (bounds : LatLngBounds) : bool :=
  (north cell <? getSouth bounds - MARGIN) ||
  (south cell >? getNorth bounds + MARGIN) ||
  (east cell <? getWest bounds - MARGIN) ||
  (west cell >? getEast bounds + MARGIN).

(** The draw of one cell that was not skipped. *)
Definition eraseCell (map : MapView) (cell : Bounds) : list CanvasOp :=
  let nw := latLngToContainerPoint map (north cell) (west cell) in
  let se := latLngToContainerPoint map (south cell) (east cell) in
  let w := px se - px nw in
  let h := py se - py nw in
  let cx := px nw + w / Fin 2 in
  let cy := py nw + h / Fin 2 in
  let r := Math_max w h * Fin (8 # 10) in
  [ SetFillRadialGradient cx cy (Fin 0) cx cy r
      [ (Fin 0, "rgba(0,0,0,1)");
        (Fin (7 # 10), "rgba(0,0,0,1)");
        (Fin 1, "rgba(0,0,0,0)") ];
    FillRect (px nw - r) (py nw - r) (r * Fin 2 + w) (r * Fin 2 + h) ].

(** One turn of the loop over the explored cells. *)
Definition update_cell (map : MapView) (ops : list CanvasOp) (key : string)
  : list CanvasOp :=
  let cell := getCellBounds cos_deg key in
  if outsideViewport cell (getBounds map) then ops
  else (ops ++ eraseCell map cell)%list.

(** [window.devicePixelRatio || 1] *)
Definition pixelRatio (devicePixelRatio : option num) : num :=
  match devicePixelRatio with
  | None | Some NaN => Fin 1
  | Some (Fin q) => if Qeq_bool q 0 then Fin 1 else Fin q
  | Some r => r
  end.

Definition _update (layer : Layer) (devicePixelRatio : option num)
  : list CanvasOp :=
  match _map layer, _canvas layer with
  | Some map, true =>
      let size := getSize map in
      let dpr := pixelRatio devicePixelRatio in
      let setup :=
        [ SetCanvasSize (px size * dpr) (py size * dpr);
          SetStyleSize (px size) (py size);
          SetPosition (layerOrigin map);
          SetTransform dpr (Fin 0) (Fin 0) dpr (Fin 0) (Fin 0);
          SetFillColor "rgba(10, 10, 10, 0.92)";
          FillRect (Fin 0) (Fin 0) (px size) (py size);
          SetComposite "destination-out" ] in
      let ops := fold_left (update_cell map) (_exploredCells layer) setup in
      (ops ++ [SetComposite "source-over"])%list
  | _, _ => []
  end.

End Renderer.

End FogOverlay.
Import FogOverlay.

(** ** Reference instances of the library functions

    Concrete functions to run the engine on: a Taylor polynomial for the
    cosine of an angle in degrees, and a JSON codec for the arrays of strings
    the engine stores. *)

Module Reference.

Local Open Scope string_scope.

Definition pi_ref : Q := 3141592653589793238 # 1000000000000000000.

(** [q] cut to 18 decimals, which keeps the fractions below small. *)
Definition cut18 (q : Q) : Q :=
  Qfloor (q * 1000000000000000000) # 1000000000000000000.

(** [1 - x2/(j(j+1)) (1 - x2/((j+2)(j+3)) (...))], [k] factors deep. *)
Fixpoint cos_series (k : nat) (j : Z) (x2 : Q) : Q :=
  match k with
  | O => 1
  | S k' => cut18 (1 - x2 / inject_Z (j * (j + 1)) * cos_series k' (j + 2) x2)
  end.

(** The cosine of [lat] degrees by its Taylor series, for [|lat| <= 180]. *)
Definition cos_ref (lat : Q) : Q :=
  let x := cut18 (lat * pi_ref / 180) in
  cos_series 16 1 (cut18 (x * x)).

Definition dquote : ascii := ascii_of_nat 34.
Definition backslash : ascii := ascii_of_nat 92.

Fixpoint escape (s : string) : string :=
  match s with
  | EmptyString => EmptyString
  | String c r =>
      if (Ascii.eqb c dquote || Ascii.eqb c backslash)%bool
      then String backslash (String c (escape r))
      else String c (escape r)
  end.

Definition quote (s : string) : string :=
  String dquote (escape s ++ String dquote EmptyString).

(** [JSON.stringify] on an array of strings without control characters. *)
Definition stringify_ref (keys : list string) : string :=
  "[" ++ String.concat "," (map quote keys) ++ "]".

(** Where the reader below stands in the text. *)
Inductive reader : Type :=
| AtStart
| AfterOpen
| InString (buf : string) (escaped : bool)
| AfterItem
| AfterComma
| AtEnd.

Definition snoc (s : string) (c : ascii) : string := s ++ String c EmptyString.

Fixpoint read_array (text : string) (st : reader) (acc : list json)
  : Exc json :=
  match text with
  | EmptyString =>
      match st with
      | AtEnd => Ret (JArr acc)
      | _ => Throw
      end
  | String c rest =>
      match st with
      | AtStart =>
          if Ascii.eqb c "[" then read_array rest AfterOpen acc else Throw
      | AfterOpen =>
          if Ascii.eqb c "]" then read_array rest AtEnd acc
          else if Ascii.eqb c dquote then read_array rest (InString "" false) acc
          else Throw
      | InString buf true =>
          if (Ascii.eqb c dquote || Ascii.eqb c backslash)%bool
          then read_array rest (InString (snoc buf c) false) acc
          else Throw
      | InString buf false =>
          if Ascii.eqb c backslash then read_array rest (InString buf true) acc
          else if Ascii.eqb c dquote
          then read_array rest AfterItem (acc ++ [JStr buf])
          else read_array rest (InString (snoc buf c) false) acc
      | AfterItem =>
          if Ascii.eqb c "," then read_array rest AfterComma acc
          else if Ascii.eqb c "]" then read_array rest AtEnd acc
          else Throw
      | AfterComma =>
          if Ascii.eqb c dquote then read_array rest (InString "" false) acc
          else Throw
      | AtEnd => Throw
      end
  end.

(** [JSON.parse] on the texts [stringify_ref] writes and on [null]; any other
    text is refused as if it were malformed. *)
Definition parse_ref (text : string) : Exc json :=
  if String.eqb text "null" then Ret JNull else read_array text AtStart [].

End Reference.
Import Reference.

(** ** The application component ([App]): the callers of the engine *)

Module App.

Local Open Scope string_scope.

(** [DEFAULT_CENTER] *)
Definition DEFAULT_CENTER : json :=
  JArr [JNum (426977 # 10000); JNum (233219 # 10000)].

Definition LAST_CENTER_KEY : string := "uncover_last_center".

(** The offsets of [doInitialReveal], in degrees of latitude and longitude. *)
Definition initial_offsets : list (Q * Q) :=
  [ (0, 0); (2 # 10000, 0); (- (2 # 10000), 0);
    (0, 3 # 10000); (0, - (3 # 10000));
    (2 # 10000, 3 # 10000); (- (2 # 10000), 3 # 10000);
    (2 # 10000, - (3 # 10000)); (- (2 # 10000), - (3 # 10000)) ]%Q.

(** The state the reveals of the component work on: the [explored] state
    and the [hasInitialReveal] ref. *)
Record RevealState : Type := {
  hasInitialReveal : bool;
  explored : list string
}.

Section Component.

Variable cos_deg : Q -> Q.
Variable JSON_stringify : list string -> string.
(** [JSON.stringify] and [JSON.parse] on any value. *)
Variable JSON_stringify_value : json -> string.
Variable JSON_parse : string -> Exc json.
(** [new Date(ts).toLocaleDateString()] *)
Variable toLocaleDateString : Z -> string.

(** [formatTime(ts)] when [new Date()] is [now]; both in milliseconds. *)
Definition formatTime (now ts : Z) : string :=
  let diff := (now - ts)%Z in
  if (diff <? 60000)%Z then "just now"
  else if (diff <? 3600000)%Z then Z_to_string (diff / 60000) ++ "m ago"
  else if (diff <? 86400000)%Z then Z_to_string (diff / 3600000) ++ "h ago"
  else toLocaleDateString ts.

(** The initializer of the [mapCenter] state: [getItem] is outside the
    [try], [JSON.parse] inside it. *)
Definition initialMapCenter (w : World) : Exc json :=
  stored <- getItem LAST_CENTER_KEY w ;;
  Ret match stored with
      | Some (String _ _ as text) => try_catch (JSON_parse text) DEFAULT_CENTER
      | Some EmptyString | None => DEFAULT_CENTER
      end.

(** The write of the position callback:
    [localStorage.setItem('uncover_last_center', JSON.stringify(newPos))]. *)
Definition saveLastCenter (latitude longitude : Q) (w : World)
  : Exc unit * World :=
  setItem LAST_CENTER_KEY
    (JSON_stringify_value (JArr [JNum latitude; JNum longitude])) w.

(** [revealCells(lat, lng)]: the updater works on a copy of the set and
    keeps the previous one when nothing changed. *)
Definition revealCells (lat lng : num) (st : RevealState) (w : World)
  : RevealState * World :=
  let prev := explored st in
  let '(changed, copy, w) := revealAt cos_deg JSON_stringify lat lng prev w in
  ({| hasInitialReveal := hasInitialReveal st;
      explored := if changed then copy else prev |}, w).

(** The success callback of [watchPosition], as far as the reveal state
    and the storage go.  The write of the position comes first and is not
    guarded: an exception there ends the callback. *)
Definition onPosition (latitude longitude : Q) (st : RevealState) (w : World)
  : Exc unit * RevealState * World :=
  match saveLastCenter latitude longitude w with
  | (Ret _, w) =>
      let '(st, w) :=
        revealCells (Fin latitude) (Fin longitude)
          {| hasInitialReveal := true; explored := explored st |} w in
      (Ret tt, st, w)
  | (Throw, w) => (Throw, st, w)
  end.

(** One turn of the loop of [doInitialReveal]. *)
Definition initial_step (lat lng : num)
  (acc : list string * bool * World) (offset : Q * Q)
  : list string * bool * World :=
  let '(copy, changed, w) := acc in
  let '(dlat, dlng) := offset in
  let '(c, copy, w) :=
    revealAt cos_deg JSON_stringify (lat + Fin dlat)%num (lng + Fin dlng)%num
      copy w in
  (copy, if c then true else changed, w).

(** [doInitialReveal(lat, lng)] *)
Definition doInitialReveal (lat lng : num) (st : RevealState) (w : World)
  : RevealState * World :=
  if hasInitialReveal st then (st, w)
  else
    let prev := explored st in
    let '(copy, changed, w) :=
      fold_left (initial_step lat lng) initial_offsets (prev, false, w) in
    ({| hasInitialReveal := true;
        explored := if changed then copy else prev |}, w).

End Component.

End App.
Import App.

(** ** The traces store ([src/lib/traces.js]) *)

Module Traces.

Local Open Scope string_scope.

Definition TRACES_KEY : string := "uncover_traces".

Section Store.

Variable JSON_stringify_value : json -> string.
Variable JSON_parse : string -> Exc json.

(** [loadTraces()]: the module variable [_traces] ([JNull] until a load
    left something else in it) before the call; the result is both the
    value returned and [_traces] after the call. *)
Definition loadTraces (_traces : json) (w : World) : json :=
  match _traces with
  | JNull =>
      try_catch
        (data <- getItem TRACES_KEY w ;;
         match data with
         | Some (String _ _ as text) => JSON_parse text
         | Some EmptyString | None => Ret (JArr [])
         end)
        (JArr [])
  | loaded => loaded
  end.

(** [saveTraces()] *)
Definition saveTraces (_traces : json) (w : World) : World :=
  snd (setItem TRACES_KEY (JSON_stringify_value _traces) w).

(** [getTraces()] *)
Definition getTraces (_traces : json) (w : World) : json :=
  loadTraces _traces w.

(** The object [addTrace] builds.  Its [id], made of the clock and of
    [Math.random], and its [createdAt] are given. *)
Definition make_trace (id : string) (createdAt lat lng : Q)
  (text category : string) : json :=
  JObj [ ("id", JStr id); ("lat", JNum lat); ("lng", JNum lng);
         ("text", JStr text); ("category", JStr category);
         ("createdAt", JNum createdAt) ].

(** [traces.push(trace)]: only an array has [push]. *)
Definition push (traces trace : json) : Exc json :=
  match traces with
  | JArr items => Ret (JArr (items ++ [trace]))
  | _ => Throw
  end.

(** [addTrace(lat, lng, text, category = 'note')]: the trace returned (or
    the exception), [_traces] after the call and the storage after it. *)
Definition addTrace (id : string) (createdAt lat lng : Q) (text : string)
  (category : option string) (_traces : json) (w : World)
  : Exc json * json * World :=
  let traces := loadTraces _traces w in
  let trace :=
    make_trace id createdAt lat lng text
      (match category with Some c => c | None => "note" end) in
  match push traces trace with
  | Ret traces' => (Ret trace, traces', saveTraces traces' w)
  | Throw => (Throw, traces, w)
  end.

(** [obj[name]], [None] for [undefined]; the fields of an object have
    distinct names. *)
Fixpoint get_field (name : string) (fields : list (string * json))
  : option json :=
  match fields with
  | [] => None
  | (k, v) :: rest => if String.eqb name k then Some v else get_field name rest
  end.

(** [t.id === id] for a string [id]: reading a property of [null] throws,
    a value without the property gives [undefined]. *)
Definition has_id (id : string) (t : json) : Exc bool :=
  match t with
  | JNull => Throw
  | JObj fields =>
      Ret match get_field "id" fields with
          | Some (JStr s) => String.eqb s id
          | _ => false
          end
  | _ => Ret false
  end.

(** [items.findIndex(t => t.id === id)], [None] for -1. *)
Fixpoint findIndex (id : string) (items : list json) : Exc (option nat) :=
  match items with
  | [] => Ret None
  | t :: rest =>
      found <- has_id id t ;;
      if found then Ret (Some O)
      else idx <- findIndex id rest ;;
           Ret (option_map S idx)
  end.

(** [items.splice(idx, 1)] *)
Definition splice1 (idx : nat) (items : list json) : list json :=
  (firstn idx items ++ skipn (S idx) items)%list.

(** [deleteTrace(id)]: whether it threw, [_traces] after the call and the
    storage after it. *)
Definition deleteTrace (id : string) (_traces : json) (w : World)
  : Exc unit * json * World :=
  let traces := loadTraces _traces w in
  match traces with
  | JArr items =>
      match findIndex id items with
      | Ret (Some idx) =>
          let traces' := JArr (splice1 idx items) in
          (Ret tt, traces', saveTraces traces' w)
      | Ret None => (Ret tt, traces, w)
      | Throw => (Throw, traces, w)
      end
  | _ => (Throw, traces, w)
  end.

End Store.

End Traces.
Import Traces.

(** ** Definitions used by the statements and proofs below *)

Module Spec.

Local Open Scope string_scope.

(** Strings of decimal digits and the number they write. *)
Fixpoint all_digits (s : string) : bool :=
  match s with
  | EmptyString => true
  | String c r =>
      match digit_of_char c with
      | Some _ => all_digits r
      | None => false
      end
  end.

Fixpoint dval (s : string) : Z :=
  match s with
  | EmptyString => 0
  | String c r =>
      match digit_of_char c with
      | Some d => d * 10 ^ Z.of_nat (String.length r) + dval r
      | None => 0
      end
  end%Z.

(** No character of [s] is the separator of the two fields of a key. *)
Fixpoint no_sep (s : string) : bool :=
  match s with
  | EmptyString => true
  | String c r => negb (Ascii.eqb c "_") && no_sep r
  end.

(** The integer nearest to [|q| * 10^6], the larger one on a tie: the digits
    [toFixed 6] prints. *)
Definition micro (q : Q) : Z :=
  Qfloor (Qabs q * 1000000 + (1 # 2)).

(** The number [toFixed 6] writes for [q]. *)
Definition round6 (q : Q) : Q :=
  if Qle_bool 0 q then micro q # 1000000 else - (micro q # 1000000).

(** [floor(x / step) * step] *)
Definition quantize (step x : Q) : Q :=
  inject_Z (Qfloor (x / step)) * step.

Definition latStep : Q := 50 / 111320.

(** The number of steps [getCoverage] counts along either axis:
    [ceil(radius / 25)]. *)
Definition steps (r : Q) : Z := Qceiling (r / 25).

(** Half a unit of the sixth decimal. *)
Definition half_micro : Q := 5 # 10000000.

(** The longitude step at a latitude whose cosine is [c]. *)
Definition lngStep (c : Q) : Q := 50 / (111320 * c).

(** The key [getRevealCells] pushes for the offset [(dx, dy)]. *)
Definition cellAt (cos_deg : Q -> Q) (lat lng : num) (offset : Z * Z)
  : string :=
  let '(dx, dy) := offset in
  getCellKey cos_deg
    (lat + of_Z dy * CELL_SIZE_LAT)%num
    (lng + of_Z dx * cellSizeLng cos_deg lat)%num.

(** The flag, the set and the storage that [revealAt] leaves. *)
Definition changed_of (r : bool * list string * World) : bool := fst (fst r).
Definition cells_of (r : bool * list string * World) : list string :=
  snd (fst r).
Definition world_of (r : bool * list string * World) : World := snd r.

(** A sequence of [revealAt] calls on one set, one per position. *)
Definition revealAll (cos_deg : Q -> Q) (JSON_stringify : list string -> string)
  (positions : list (num * num)) (exploredCells : list string) (w : World)
  : list string * World :=
  fold_left
    (fun st pos =>
       let r := revealAt cos_deg JSON_stringify (fst pos) (snd pos)
                  (fst st) (snd st) in
       (cells_of r, world_of r))
    positions (exploredCells, w).

(** A set for the coverage estimator: the 15 x 15 block of cells around
    (0, 0), keyed by [getCellKey] at the cell centers, less its last cell. *)
Definition span : list Z := [-7; -6; -5; -4; -3; -2; -1; 0; 1; 2; 3; 4; 5; 6; 7]%Z.

Definition cell_center (i j : Z) : num * num :=
  (Fin ((inject_Z i + (1 # 2)) * latStep),
   Fin ((inject_Z j + (1 # 2)) * latStep)).

Definition block : list string :=
  flat_map
    (fun i =>
       map (fun j =>
              getCellKey cos_ref (fst (cell_center i j)) (snd (cell_center i j)))
           span)
    span.

Definition block_less_one : list string := removelast block.

(** A rectangle of finite bounds, and two rectangles having a point in
    common. *)
Definition rectangle (s n w e : Q) : Bounds :=
  {| south := Fin s; north := Fin n; west := Fin w; east := Fin e |}.

Definition in_rectangle (s n w e p q : Q) : Prop :=
  (s <= p <= n /\ w <= q <= e)%Q.

Definition rectangles_meet (s n w e s' n' w' e' : Q) : Prop :=
  exists p q : Q, in_rectangle s n w e p q /\ in_rectangle s' n' w' e' p q.

(** The margin of the culling test, 0.005 degrees. *)
Definition margin : Q := 5 # 1000.

(** What the repaint pass does with the explored cells when the viewport is
    the rectangle [vS, vN] x [vW, vE]: it draws the cells of a list [drawn],
    in the order of the set, between the fog fill and the restoring of the
    compositing mode, and a cell of proper rectangular bounds is in [drawn]
    exactly when its bounds meet the viewport widened by the margin. *)
Definition culls_to_viewport (cos_deg : Q -> Q) (map : MapView) (layer : Layer)
  (devicePixelRatio : option num) (vS vN vW vE : Q) : Prop :=
  exists (setup : list CanvasOp) (drawn : list string),
    _update cos_deg layer devicePixelRatio =
      (setup ++
       flat_map (fun key => eraseCell map (getCellBounds cos_deg key)) drawn ++
       [SetComposite "source-over"])%list /\
    existsb is_gradient_erase setup = false /\
    List.length (filter is_gradient_erase
                   (_update cos_deg layer devicePixelRatio))
      = List.length drawn /\
    (forall key, In key drawn -> In key (_exploredCells layer)) /\
    (forall key s n w e,
       In key (_exploredCells layer) ->
       getCellBounds cos_deg key = rectangle s n w e ->
       (s <= n)%Q -> (w <= e)%Q ->
       (In key drawn <->
        rectangles_meet s n w e
          (vS - margin) (vN + margin) (vW - margin) (vE + margin))).

(** A viewport around (42.6977, 23.3219), a projection onto an 800 x 600
    canvas, and a layer with one cell inside the viewport and one far away. *)
Definition sample_view : MapView :=
  {| getSize := {| px := Fin 800; py := Fin 600 |};
     getBounds :=
       {| getSouth := Fin (42694 # 1000); getNorth := Fin (42700 # 1000);
          getWest := Fin (23318 # 1000); getEast := Fin (23326 # 1000) |};
     layerOrigin := {| px := Fin 0; py := Fin 0 |};
     latLngToContainerPoint := fun lat lng =>
       {| px := ((lng - Fin (23318 # 1000)) * Fin 100000)%num;
          py := ((Fin (42700 # 1000) - lat) * Fin 100000)%num |} |}.

Definition sample_layer : Layer :=
  {| _map := Some sample_view;
     _canvas := true;
     _exploredCells := ["42.697628_23.321882"; "42.750180_23.321882"] |}.

(** The position of the scenario. *)
Definition lat0 : Q := 426977 # 10000.
Definition lng0 : Q := 233219 # 10000.

(** [(lat', lng')] is [d] metres from [(lat, lng)], by the engine's own
    conversion: 111320 m per degree of latitude, and that times the cosine
    of the latitude per degree of longitude. *)
Definition metres_apart (cos_deg : Q -> Q) (lat lng lat' lng' d : Q) : Prop :=
  let dy := ((lat' - lat) * 111320)%Q in
  let dx := ((lng' - lng) * 111320 * cos_deg (Qred lat))%Q in
  (dy * dy + dx * dx == d * d)%Q.

(** The point [e] metres due east of [(lat0, lng0)]. *)
Definition east_of (cos_deg : Q -> Q) (e : Q) : Q :=
  (lng0 + e / (111320 * cos_deg (Qred lat0)))%Q.

(** What holds of the keys around the position of the scenario. *)
Definition scenario_keys (cos_deg : Q -> Q) : Prop :=
  (forall e : Q,
     (-1 <= e <= 48)%Q ->
     getCellKey cos_deg (Fin lat0) (Fin (east_of cos_deg e)) =
     getCellKey cos_deg (Fin lat0) (Fin lng0)) /\
  (forall lat lng : Q,
     metres_apart cos_deg lat0 lng0 lat lng 200 ->
     (0 < cos_deg (Qred lat))%Q ->
     (cos_deg (Qred lat0) <= 2 * cos_deg (Qred lat))%Q ->
     getCellKey cos_deg (Fin lat) (Fin lng) <>
     getCellKey cos_deg (Fin lat0) (Fin lng0)).

(** A point just above the south edge of its cell: the edge rounds up past
    the point, and [south <= lat] fails. *)
Definition lat_near_edge : Q := 17967 # 10000000.

(** Ten degrees past the north pole the cosine is negative, and the key is
    built all the same: latitude field 100, longitude field east of the
    point. *)
Definition lat_past_pole : Q := 1000002 # 10000.

(** The offsets of the brush, in the order the two loops visit them. *)
Definition brush : list (Z * Z) :=
  [ (-1, -2); (0, -2); (1, -2);
    (-2, -1); (-1, -1); (0, -1); (1, -1); (2, -1);
    (-2, 0); (-1, 0); (0, 0); (1, 0); (2, 0);
    (-2, 1); (-1, 1); (0, 1); (1, 1); (2, 1);
    (-1, 2); (0, 2); (1, 2) ]%Z.

(** A storage that holds two keys, as [saveExploredCells] wrote them. *)
Definition stored_keys : list string := ["42.697628_23.321882"; "42.697628_23.322493"].

Definition world_with_keys : World :=
  {| ls_available := true;
     ls_items := [(STORAGE_KEY, stringify_ref stored_keys)];
     ls_quota := 5000;
     ls_setItem_calls := [] |}.

(** A unit of the sixth decimal. *)
Definition micro_deg : Q := 1 # 1000000.

(** A storage that is available and holds nothing yet. *)
Definition empty_world : World :=
  {| ls_available := true;
     ls_items := [];
     ls_quota := 5000;
     ls_setItem_calls := [] |}.

(** The percentage [getCoverage] shows for [n] cells counted when there are
    [t] steps along either axis: [100 n / t^2] rounded to the nearest
    integer, a tie upwards, and capped at 100; 0 when there is no step. *)
Definition coverage_percent (t n : Z) : Z :=
  if (t =? 0)%Z then 0%Z
  else Z.min 100 ((200 * n + t * t) / (2 * (t * t))).

(** The draws of the erase loop: a gradient set as fill style, and a filled
    rectangle. *)
Definition is_erase_op (op : CanvasOp) : bool :=
  match op with
  | SetFillRadialGradient _ _ _ _ _ _ _ | FillRect _ _ _ _ => true
  | _ => false
  end.

(** The gradient stops of a cell's erase: full erase up to 70% of the
    radius, none at the radius. *)
Definition erase_stops : list (num * string) :=
  [ (Fin 0, "rgba(0,0,0,1)");
    (Fin (7 # 10), "rgba(0,0,0,1)");
    (Fin 1, "rgba(0,0,0,0)") ].

(** A codec for the one JSON value the component stores itself, a pair of
    numbers, written with six decimals. *)
Definition stringify_center_ref (v : json) : string :=
  match v with
  | JArr [JNum a; JNum b] =>
      "[" ++ toFixed 6 (Fin a) ++ "," ++ toFixed 6 (Fin b) ++ "]"
  | _ => "null"
  end.

Definition parse_center_ref (text : string) : Exc json :=
  match text with
  | String "[" rest =>
      match split "," rest with
      | [a; b] =>
          match parseFloat a, parseFloat b with
          | Fin x, Fin y => Ret (JArr [JNum (Qred x); JNum (Qred y)])
          | _, _ => Throw
          end
      | _ => Throw
      end
  | _ => Throw
  end.

(** [JSON.stringify] on the arrays [stringify_ref] covers, arrays of
    strings, the empty one among them. *)
Fixpoint strings_of (items : list json) : option (list string) :=
  match items with
  | [] => Some []
  | JStr s :: rest => option_map (cons s) (strings_of rest)
  | _ :: _ => None
  end.

Definition stringify_array_ref (v : json) : string :=
  match v with
  | JArr items =>
      match strings_of items with
      | Some keys => stringify_ref keys
      | None => "null"
      end
  | _ => "null"
  end.

(** An element of the trace list that [t => t.id === id] rejects. *)
Definition other_id (id : string) (t : json) : Prop :=
  has_id id t = Ret false.

(** A trace as [addTrace] makes it. *)
Definition sample_trace : json :=
  make_trace "lk3x9a0f" 1700000000000 lat0 lng0 "bench with a view" "spot".

(** The component before its first reveal, with nothing explored. *)
Definition fresh_state : RevealState :=
  {| hasInitialReveal := false; explored := [] |}.

End Spec.
Import Spec.

(** ** Facts about the string functions *)

Module JsStringFacts.

Local Open Scope string_scope.
Local Open Scope Z_scope.

Lemma digit_of_digit_char d :
  0 <= d < 10 -> digit_of_char (digit_char d) = Some d.
Proof.
  intros H.
  assert (d = 0 \/ d = 1 \/ d = 2 \/ d = 3 \/ d = 4 \/
          d = 5 \/ d = 6 \/ d = 7 \/ d = 8 \/ d = 9) as C by lia.
  repeat (destruct C as [-> | C]; [reflexivity |]).
  subst; reflexivity.
Qed.

Lemma digit_char_inv c d :
  digit_of_char c = Some d -> 0 <= d < 10 /\ c = digit_char d.
Proof.
  intros H.
  destruct c as [[] [] [] [] [] [] [] []]; vm_compute in H;
    try discriminate H; injection H as <-; split; try lia; reflexivity.
Qed.

Lemma digit_not_white c d : digit_of_char c = Some d -> is_white c = false.
Proof.
  intros H. apply digit_char_inv in H as [H ->].
  assert (d = 0 \/ d = 1 \/ d = 2 \/ d = 3 \/ d = 4 \/
          d = 5 \/ d = 6 \/ d = 7 \/ d = 8 \/ d = 9) as C by lia.
  repeat (destruct C as [-> | C]; [reflexivity |]).
  subst; reflexivity.
Qed.

Lemma digit_not_sep c d : digit_of_char c = Some d -> Ascii.eqb c "_" = false.
Proof.
  intros H. apply digit_char_inv in H as [H ->].
  assert (d = 0 \/ d = 1 \/ d = 2 \/ d = 3 \/ d = 4 \/
          d = 5 \/ d = 6 \/ d = 7 \/ d = 8 \/ d = 9) as C by lia.
  repeat (destruct C as [-> | C]; [reflexivity |]).
  subst; reflexivity.
Qed.

Lemma length_app (s t : string) :
  String.length (s ++ t) = (String.length s + String.length t)%nat.
Proof. induction s; simpl; congruence. Qed.

Lemma app_assoc (s t u : string) : (s ++ t) ++ u = s ++ (t ++ u).
Proof. induction s; simpl; congruence. Qed.

Lemma app_empty_r (s : string) : s ++ "" = s.
Proof. induction s; simpl; congruence. Qed.

Lemma all_digits_app s t :
  all_digits s = true -> all_digits t = true -> all_digits (s ++ t) = true.
Proof.
  induction s as [| c s IH]; simpl; auto.
  destruct (digit_of_char c); auto; discriminate.
Qed.

(** Appending one digit multiplies the value by ten. *)
Lemma dval_snoc s d :
  all_digits s = true -> 0 <= d < 10 ->
  dval (s ++ String (digit_char d) "") = 10 * dval s + d.
Proof.
  intros Hs Hd. induction s as [| c s IH]; cbn [append dval all_digits] in *.
  - rewrite digit_of_digit_char by assumption. cbn [String.length Z.of_nat].
    lia.
  - destruct (digit_of_char c) as [e |]; [| discriminate].
    rewrite IH by assumption. rewrite length_app. cbn [String.length].
    rewrite Nat2Z.inj_add. change (Z.of_nat 1) with 1.
    rewrite Z.pow_add_r by lia. lia.
Qed.

(** Scanning a run of digits followed by [rest]. *)
Lemma scan_digits_app ds rest a c :
  all_digits ds = true ->
  scan_digits (ds ++ rest) a c =
  scan_digits rest (a * 10 ^ Z.of_nat (String.length ds) + dval ds)
    (c + String.length ds).
Proof.
  revert a c. induction ds as [| ch ds IH]; intros a c H;
    cbn [append dval all_digits String.length scan_digits] in *.
  - cbn [Z.of_nat]. rewrite Z.pow_0_r, Z.mul_1_r, Z.add_0_r, Nat.add_0_r.
    reflexivity.
  - destruct (digit_of_char ch) as [d |]; [| discriminate].
    rewrite IH by assumption. f_equal.
    + rewrite Nat2Z.inj_succ, Z.pow_succ_r by lia. lia.
    + lia.
Qed.

Lemma scan_digits_stop s a c :
  match s with
  | EmptyString => True
  | String ch _ => digit_of_char ch = None
  end ->
  scan_digits s a c = (a, c, s).
Proof. destruct s as [| ch s]; simpl; [reflexivity | intros ->; reflexivity]. Qed.

(** [digits_of] writes [n] in front of [acc]. *)
Lemma digits_of_spec fuel : forall n acc,
  0 <= n < 10 ^ Z.of_nat (S fuel) ->
  exists ds,
    digits_of fuel n acc = ds ++ acc /\ all_digits ds = true /\
    dval ds = n /\ ds <> "".
Proof.
  assert (Hone : forall n acc, 0 <= n < 10 ->
            exists ds, String (digit_char (n mod 10)) acc = ds ++ acc /\
              all_digits ds = true /\ dval ds = n /\ ds <> "").
  { intros n acc Hn. exists (String (digit_char n) "").
    rewrite Z.mod_small by lia. simpl.
    rewrite digit_of_digit_char by lia. simpl.
    repeat split; [lia | discriminate]. }
  induction fuel as [| f IH]; intros n acc Hn.
  - simpl. apply Hone. simpl in Hn. lia.
  - cbn [digits_of]. destruct (Z.eqb_spec (n / 10) 0) as [E | E].
    + apply Hone. split; [lia |].
      destruct (Z.lt_ge_cases n 10) as [L | L]; [exact L |].
      exfalso. pose proof (Z.div_le_mono 10 n 10 ltac:(lia) L) as D.
      change (10 / 10) with 1 in D. lia.
    + destruct (IH (n / 10) (String (digit_char (n mod 10)) acc))
        as (ds & E1 & E2 & E3 & E4).
      { split; [apply Z.div_pos; lia |].
        apply Z.div_lt_upper_bound; [lia |].
        rewrite Nat2Z.inj_succ, Z.pow_succ_r in Hn by lia. lia. }
      exists (ds ++ String (digit_char (n mod 10)) "").
      rewrite E1, app_assoc. simpl. repeat split.
      * apply all_digits_app; [assumption |]. simpl.
        rewrite digit_of_digit_char; [reflexivity |].
        apply Z.mod_pos_bound; lia.
      * rewrite dval_snoc; [| assumption | apply Z.mod_pos_bound; lia].
        rewrite E3. pose proof (Z_div_mod_eq_full n 10). lia.
      * destruct ds; simpl; discriminate.
Qed.

Lemma Z_to_string_spec n acc :
  0 <= n ->
  exists ds,
    Z_to_string n ++ acc = ds ++ acc /\ Z_to_string n = ds /\
    all_digits ds = true /\ dval ds = n /\ ds <> "".
Proof.
  intros Hn. unfold Z_to_string.
  destruct (digits_of_spec (Z.to_nat (Z.log2 n)) (n := n) "") as (ds & E & H).
  - split; [assumption |].
    rewrite Nat2Z.inj_succ, Z2Nat.id by apply Z.log2_nonneg.
    destruct (Z.eq_dec n 0) as [-> | N]; [reflexivity |].
    apply Z.lt_le_trans with (2 ^ Z.succ (Z.log2 n)).
    + apply Z.log2_spec. lia.
    + apply Z.pow_le_mono_l. pose proof (Z.log2_nonneg n). lia.
  - rewrite app_empty_r in E. exists ds. rewrite E. tauto.
Qed.

(** [pad_digits] writes the [k] low-order digits of [n] in front of [acc]. *)
Lemma pad_digits_spec k : forall n acc,
  0 <= n ->
  exists ds,
    pad_digits k n acc = ds ++ acc /\ all_digits ds = true /\
    String.length ds = k /\ dval ds = n mod 10 ^ Z.of_nat k.
Proof.
  induction k as [| k IH]; intros n acc Hn.
  - exists "". simpl. rewrite Z.mod_1_r. auto.
  - cbn [pad_digits].
    destruct (IH (n / 10) (String (digit_char (n mod 10)) acc))
      as (ds & E1 & E2 & E3 & E4); [apply Z.div_pos; lia |].
    exists (ds ++ String (digit_char (n mod 10)) "").
    rewrite E1, app_assoc. cbn [append]. repeat split.
    + apply all_digits_app; [assumption |]. cbn [all_digits].
      rewrite digit_of_digit_char; [reflexivity |].
      apply Z.mod_pos_bound; lia.
    + rewrite length_app, E3. cbn [String.length]. lia.
    + rewrite dval_snoc; [| assumption | apply Z.mod_pos_bound; lia].
      rewrite E4, Nat2Z.inj_succ, Z.pow_succ_r by lia.
      rewrite Z.rem_mul_r by lia. lia.
Qed.

Lemma micro_nonneg q : 0 <= micro q.
Proof.
  unfold micro. change 0 with (Qfloor 0). apply Qfloor_resp_le.
  pose proof (Qabs_nonneg q). nra.
Qed.

(** The shape of what [toFixed 6] prints for a finite number. *)
Lemma toFixed6_shape q :
  exists ds1 ds2,
    toFixed 6 (Fin q) =
      (if Qle_bool 0 q then "" else "-") ++ ds1 ++ String "." ds2 /\
    all_digits ds1 = true /\ ds1 <> "" /\
    all_digits ds2 = true /\ String.length ds2 = 6%nat /\
    dval ds1 = micro q / 1000000 /\ dval ds2 = micro q mod 1000000.
Proof.
  pose proof (micro_nonneg q) as Hm.
  destruct (Z_to_string_spec (n := micro q / 1000000) "")
    as (ds1 & _ & E1 & D1 & V1 & N1); [apply Z.div_pos; lia |].
  destruct (pad_digits_spec 6 (n := micro q mod 1000000) "")
    as (ds2 & E2 & D2 & L2 & V2); [apply Z.mod_pos_bound; lia |].
  rewrite app_empty_r in E2.
  exists ds1, ds2.
  assert (toFixed 6 (Fin q) =
    let body := Z_to_string (micro q / 1000000) ++ "." ++
                pad_digits 6 (micro q mod 1000000) "" in
    if Qle_bool 0 q then body else "-" ++ body) as -> by reflexivity.
  cbv zeta. rewrite E1, E2.
  repeat split; try assumption.
  - destruct (Qle_bool 0 q); reflexivity.
  - rewrite V2. change (10 ^ Z.of_nat 6) with 1000000.
    apply Z.mod_mod. lia.
Qed.

Lemma skip_white_digit c r d :
  digit_of_char c = Some d -> skip_white (String c r) = String c r.
Proof. intros H. simpl. now rewrite (digit_not_white _ H). Qed.

Lemma skip_white_minus s : skip_white (String "-" s) = String "-" s.
Proof. reflexivity. Qed.

Lemma scan_sign_digit c r d :
  digit_of_char c = Some d -> scan_sign (String c r) = (false, String c r).
Proof.
  intros H. apply digit_char_inv in H as [H ->].
  assert (d = 0 \/ d = 1 \/ d = 2 \/ d = 3 \/ d = 4 \/
          d = 5 \/ d = 6 \/ d = 7 \/ d = 8 \/ d = 9) as C by lia.
  repeat (destruct C as [-> | C]; [reflexivity |]).
  subst; reflexivity.
Qed.

Lemma prefix_Infinity_digit c r d :
  digit_of_char c = Some d -> prefix "Infinity" (String c r) = false.
Proof.
  intros H. cbn [prefix]. destruct (ascii_dec "I" c) as [<- | _];
    [discriminate H | reflexivity].
Qed.

(** [parseFloat] on a sign, digits, a point and digits. *)
Lemma parseFloat_decimal (neg : bool) ds1 ds2 :
  all_digits ds1 = true -> ds1 <> "" -> all_digits ds2 = true ->
  exists v,
    parseFloat ((if neg then "-" else "") ++ ds1 ++ String "." ds2) = Fin v /\
    (v == (if neg then -1 else 1) *
          (inject_Z (dval ds1) +
           inject_Z (dval ds2) / inject_Z (10 ^ Z.of_nat (String.length ds2))))%Q.
Proof.
  intros D1 N1 D2.
  destruct ds1 as [| c r]; [congruence |].
  pose proof D1 as Dc. cbn [all_digits] in Dc.
  destruct (digit_of_char c) as [d |] eqn:Ec; [| discriminate].
  assert (Hbody : forall sg : bool,
    (let '(ip, n1, s1) := scan_digits (String c r ++ String "." ds2) 0 0 in
     let '(fp, n2, s2) :=
       match s1 with
       | String "." r0 => scan_digits r0 0 0
       | _ => (0, O, s1)
       end in
     match (n1 + n2)%nat with
     | O => NaN
     | _ =>
         let mant :=
           (inject_Z ip + inject_Z fp / inject_Z (10 ^ Z.of_nat n2))%Q in
         let v := (mant * Qpower 10 (scan_exponent s2))%Q in
         Fin (if sg then - v else v)%Q
     end) =
    Fin (if sg
         then - ((inject_Z (dval (String c r)) +
                  inject_Z (dval ds2) /
                  inject_Z (10 ^ Z.of_nat (String.length ds2))) * 1)
         else ((inject_Z (dval (String c r)) +
                inject_Z (dval ds2) /
                inject_Z (10 ^ Z.of_nat (String.length ds2))) * 1))%Q).
  { intros sg. rewrite (@scan_digits_app _ (String "." ds2) 0 0%nat D1).
    rewrite scan_digits_stop by reflexivity.
    rewrite <- (app_empty_r ds2) at 1.
    rewrite (@scan_digits_app _ "" 0 0%nat D2).
    cbn [scan_digits String.length Nat.add scan_exponent Qpower].
    rewrite !Z.mul_0_l, !Z.add_0_l. reflexivity. }
  destruct neg.
  - eexists. split.
    + unfold parseFloat. cbn [append].
      rewrite skip_white_minus. cbn [scan_sign].
      rewrite (@prefix_Infinity_digit c _ d Ec).
      exact (Hbody true).
    + ring.
  - eexists. split.
    + unfold parseFloat. cbn [append].
      rewrite (@skip_white_digit c _ d Ec), (@scan_sign_digit c _ d Ec).
      rewrite (@prefix_Infinity_digit c _ d Ec).
      exact (Hbody false).
    + ring.
Qed.

(** [parseFloat] reads back the number [toFixed 6] wrote. *)
Lemma parseFloat_toFixed6 q :
  exists v, parseFloat (toFixed 6 (Fin q)) = Fin v /\ (v == round6 q)%Q.
Proof.
  destruct (toFixed6_shape q) as (ds1 & ds2 & E & D1 & N1 & D2 & L2 & V1 & V2).
  destruct (@parseFloat_decimal (negb (Qle_bool 0 q)) ds1 ds2 D1 N1 D2)
    as (v & Ev & Hv).
  exists v. split.
  - rewrite E, <- Ev. destruct (Qle_bool 0 q); reflexivity.
  - rewrite Hv, V1, V2, L2. change (10 ^ Z.of_nat 6) with 1000000.
    unfold round6.
    assert ((inject_Z (micro q / 1000000) +
             inject_Z (micro q mod 1000000) / inject_Z 1000000 ==
             micro q # 1000000)%Q) as ->.
    { rewrite (Qmake_Qdiv (micro q) 1000000).
      rewrite (Z_div_mod_eq_full (micro q) 1000000) at 3.
      rewrite inject_Z_plus, inject_Z_mult.
      change (inject_Z (Z.pos 1000000)) with (inject_Z 1000000).
      field. }
    destruct (Qle_bool 0 q); cbn [negb]; ring.
Qed.

Lemma all_digits_no_sep s : all_digits s = true -> no_sep s = true.
Proof.
  induction s as [| c s IH]; cbn [all_digits no_sep]; [reflexivity |].
  destruct (digit_of_char c) as [d |] eqn:E; [| discriminate].
  intros H. rewrite (digit_not_sep _ E). simpl. auto.
Qed.

Lemma no_sep_app s t :
  no_sep s = true -> no_sep t = true -> no_sep (s ++ t) = true.
Proof.
  induction s as [| c s IH]; cbn [no_sep append]; [auto |].
  intros H Ht. apply andb_true_iff in H as [-> H]. simpl. auto.
Qed.

(** No output of [toFixed 6] holds the separator of a key. *)
Lemma toFixed6_no_sep x : no_sep (toFixed 6 x) = true.
Proof.
  destruct x as [q | | |]; try reflexivity.
  destruct (toFixed6_shape q) as (ds1 & ds2 & E & D1 & _ & D2 & _).
  rewrite E. apply no_sep_app; [destruct (Qle_bool 0 q); reflexivity |].
  apply no_sep_app; [now apply all_digits_no_sep |].
  cbn [no_sep]. rewrite (all_digits_no_sep _ D2). reflexivity.
Qed.

Lemma split_no_sep s : no_sep s = true -> split "_" s = [s].
Proof.
  induction s as [| c s IH]; cbn [no_sep split]; [reflexivity |].
  intros H. apply andb_true_iff in H as [Hc Hs].
  apply negb_true_iff in Hc. rewrite Hc, (IH Hs). reflexivity.
Qed.

(** Splitting a key gives back its two fields. *)
Lemma split_key a b :
  no_sep a = true -> no_sep b = true -> split "_" (a ++ "_" ++ b) = [a; b].
Proof.
  intros Ha Hb. induction a as [| c a IH]; cbn [no_sep split append] in *.
  - rewrite Ascii.eqb_refl, (split_no_sep _ Hb). reflexivity.
  - apply andb_true_iff in Ha as [Hc Ha].
    apply negb_true_iff in Hc. rewrite Hc, (IH Ha). reflexivity.
Qed.

End JsStringFacts.

(** ** Facts about rounding and quantization *)

Unset Implicit Arguments.

Module QuantFacts.

Local Open Scope Q_scope.

(** [toFixed 6] moves a number by at most half a millionth. *)
Lemma round6_error q : Qabs (round6 q - q) <= half_micro.
Proof.
  unfold round6, half_micro.
  pose proof (Qfloor_le (Qabs q * 1000000 + (1 # 2))) as L.
  pose proof (Qlt_floor (Qabs q * 1000000 + (1 # 2))) as U.
  fold (micro q) in L, U.
  rewrite inject_Z_plus in U. change (inject_Z 1) with 1 in U.
  assert (E : micro q # 1000000 == inject_Z (micro q) / 1000000)
    by apply Qmake_Qdiv.
  assert (E' : inject_Z (micro q) == (micro q # 1000000) * 1000000)
    by (rewrite E; field).
  rewrite E' in L, U. clear E E'.
  apply Qabs_Qle_condition.
  destruct (Qle_bool 0 q) eqn:S.
  - apply Qle_bool_iff in S. rewrite (Qabs_pos q S) in L, U. lra.
  - assert (q < 0) as N.
    { apply Qnot_le_lt. intros H. apply Qle_bool_iff in H. congruence. }
    rewrite (Qabs_neg q) in L, U by lra. lra.
Qed.

(** [quantize] returns the multiple of the step at or just below [x]. *)
Lemma quantize_bounds step x :
  0 < step ->
  quantize step x <= x /\ x < quantize step x + step.
Proof.
  intros Hs. unfold quantize.
  pose proof (Qfloor_le (x / step)) as L.
  pose proof (Qlt_floor (x / step)) as U.
  rewrite inject_Z_plus in U. change (inject_Z 1) with 1 in U.
  assert (E : x == x / step * step) by (field; lra).
  set (k := inject_Z (Qfloor (x / step))) in *.
  set (y := x / step) in *.
  assert (0 <= (y - k) * step) by (apply Qmult_le_0_compat; lra).
  assert (0 < (k + 1 - y) * step) by (apply Qmult_lt_0_compat; lra).
  split; lra.
Qed.

Lemma Qfloor_unique x k :
  inject_Z k <= x -> x < inject_Z (k + 1) -> Qfloor x = k.
Proof.
  intros L U.
  pose proof (Qfloor_le x) as L'. pose proof (Qlt_floor x) as U'.
  assert (inject_Z (Qfloor x) < inject_Z (k + 1)) as A by lra.
  assert (inject_Z k < inject_Z (Qfloor x + 1)) as B by lra.
  rewrite <- Zlt_Qlt in A, B. lia.
Qed.

Lemma Qfloor_add_Z x k : Qfloor (x + inject_Z k) = (Qfloor x + k)%Z.
Proof.
  pose proof (Qfloor_le x) as L. pose proof (Qlt_floor x) as U.
  apply Qfloor_unique.
  - rewrite inject_Z_plus. lra.
  - rewrite !inject_Z_plus in *. lra.
Qed.

(** Moving a point by whole steps moves its quantized value as much. *)
Lemma quantize_shift step x k :
  ~ step == 0 ->
  quantize step (x + inject_Z k * step) == quantize step x + inject_Z k * step.
Proof.
  intros H. unfold quantize.
  rewrite (Qfloor_comp ((x + inject_Z k * step) / step) (x / step + inject_Z k))
    by (field; exact H).
  rewrite Qfloor_add_Z, inject_Z_plus. ring.
Qed.

Lemma latStep_pos : 0 < latStep.
Proof. reflexivity. Qed.

Lemma lngStep_pos c : 0 < c -> 0 < lngStep c.
Proof.
  intros H. unfold lngStep. apply Qlt_shift_div_l; lra.
Qed.

Lemma lngStep_nonzero c : ~ c == 0 -> ~ lngStep c == 0.
Proof.
  intros H E. unfold lngStep in E.
  assert (50 == 0) as A.
  { setoid_replace 50 with (50 / (111320 * c) * (111320 * c)) by (field; exact H).
    rewrite E. ring. }
  discriminate A.
Qed.

End QuantFacts.

(** ** Facts about the grid engine *)

Module GridFacts.

Import JsStringFacts QuantFacts.
Local Open Scope string_scope.

Section Engine.

Variable cos_deg : Q -> Q.

Lemma CELL_SIZE_LAT_eq : CELL_SIZE_LAT = Fin latStep.
Proof. reflexivity. Qed.

Lemma Qeq_bool_false p q : ~ (p == q)%Q -> Qeq_bool p q = false.
Proof.
  intros H. destruct (Qeq_bool p q) eqn:E; [| reflexivity].
  apply Qeq_bool_eq in E. contradiction.
Qed.

(** The longitude step, by the cosine at the latitude. *)
Lemma cellSizeLng_fin lat :
  ~ (cos_deg (Qred lat) == 0)%Q ->
  cellSizeLng cos_deg (Fin lat) = Fin (lngStep (cos_deg (Qred lat))).
Proof.
  intros H. unfold cellSizeLng, cos_of_degrees, METERS_PER_DEG_LAT,
    CELL_SIZE_METERS, nmul, ndiv.
  rewrite Qeq_bool_false; [reflexivity |].
  intros E. apply H. nra.
Qed.

Lemma cellSizeLng_zero lat :
  (cos_deg (Qred lat) == 0)%Q -> cellSizeLng cos_deg (Fin lat) = PInf.
Proof.
  intros H. unfold cellSizeLng, cos_of_degrees, METERS_PER_DEG_LAT,
    CELL_SIZE_METERS, nmul, ndiv.
  assert (Qeq_bool (111320 * cos_deg (Qred lat)) 0 = true) as ->
    by (apply Qeq_bool_iff; rewrite H; ring).
  reflexivity.
Qed.

(** The latitude field of a key never looks at the cosine. *)
Lemma getCellKey_fin lat lng :
  getCellKey cos_deg (Fin lat) (Fin lng) =
  toFixed 6 (Fin (quantize latStep lat)) ++ "_" ++
  toFixed 6
    (Math_floor (Fin lng / cellSizeLng cos_deg (Fin lat)) *
     cellSizeLng cos_deg (Fin lat))%num.
Proof. reflexivity. Qed.

Lemma getCellKey_nonzero lat lng :
  ~ (cos_deg (Qred lat) == 0)%Q ->
  getCellKey cos_deg (Fin lat) (Fin lng) =
  toFixed 6 (Fin (quantize latStep lat)) ++ "_" ++
  toFixed 6 (Fin (quantize (lngStep (cos_deg (Qred lat))) lng)).
Proof.
  intros H. rewrite getCellKey_fin, (cellSizeLng_fin _ H).
  unfold ndiv. rewrite (Qeq_bool_false _ _ (lngStep_nonzero _ H)). reflexivity.
Qed.

Lemma getCellKey_zero lat lng :
  (cos_deg (Qred lat) == 0)%Q ->
  getCellKey cos_deg (Fin lat) (Fin lng) =
  toFixed 6 (Fin (quantize latStep lat)) ++ "_NaN".
Proof.
  intros H. rewrite getCellKey_fin, (cellSizeLng_zero _ H). reflexivity.
Qed.

(** [getCellKey] on finite numbers, by the cosine being zero or not. *)
Lemma getCellKey_cases lat lng :
  getCellKey cos_deg (Fin lat) (Fin lng) =
  toFixed 6 (Fin (quantize latStep lat)) ++ "_" ++
  (if Qeq_bool (cos_deg (Qred lat)) 0 then "NaN"
   else toFixed 6 (Fin (quantize (lngStep (cos_deg (Qred lat))) lng))).
Proof.
  destruct (Qeq_bool (cos_deg (Qred lat)) 0) eqn:E.
  - apply Qeq_bool_iff in E. apply getCellKey_zero. exact E.
  - apply getCellKey_nonzero. intros H. apply Qeq_bool_iff in H. congruence.
Qed.

Lemma toFixed6_proper p q : (p == q)%Q -> toFixed 6 (Fin p) = toFixed 6 (Fin q).
Proof.
  intros H.
  assert (Qle_bool 0 p = Qle_bool 0 q) as Hs.
  { destruct (Qle_bool 0 p) eqn:A, (Qle_bool 0 q) eqn:B; try reflexivity.
    - apply Qle_bool_iff in A. rewrite H in A. apply Qle_bool_iff in A.
      congruence.
    - apply Qle_bool_iff in B. rewrite <- H in B. apply Qle_bool_iff in B.
      congruence. }
  assert (forall scale,
            Qfloor (Qabs p * inject_Z scale + (1 # 2)) =
            Qfloor (Qabs q * inject_Z scale + (1 # 2))) as Hf.
  { intros scale. apply Qfloor_comp. rewrite H. reflexivity. }
  unfold toFixed. cbv zeta. rewrite Hs, Hf. reflexivity.
Qed.

Lemma quantize_proper step x y :
  (x == y)%Q -> quantize step x = quantize step y.
Proof.
  intros H. unfold quantize.
  rewrite (Qfloor_comp (x / step) (y / step)) by (rewrite H; reflexivity).
  reflexivity.
Qed.

(** The key depends on the numbers, not on the fractions that write them. *)
Lemma getCellKey_proper a a' b b' :
  (a == a')%Q -> (b == b')%Q ->
  getCellKey cos_deg (Fin a) (Fin b) = getCellKey cos_deg (Fin a') (Fin b').
Proof.
  intros Ha Hb. rewrite !getCellKey_cases.
  rewrite (Qred_complete a a' Ha).
  rewrite (quantize_proper latStep a a' Ha).
  rewrite (quantize_proper (lngStep (cos_deg (Qred a'))) b b' Hb).
  reflexivity.
Qed.

(** The two numbers [getCellBounds] and [getCoverage] read out of a key. *)
Lemma key_fields a b :
  let parts := split "_" (toFixed 6 a ++ "_" ++ toFixed 6 b) in
  parseFloat_opt (nth_error parts 0) = parseFloat (toFixed 6 a) /\
  parseFloat_opt (nth_error parts 1) = parseFloat (toFixed 6 b).
Proof.
  cbv zeta. rewrite (split_key _ _ (toFixed6_no_sep a) (toFixed6_no_sep b)).
  split; reflexivity.
Qed.

End Engine.

End GridFacts.

(** ** The cell codec *)

Module CellCodec.

Import JsStringFacts QuantFacts GridFacts.
Local Open Scope string_scope.

Section Codec.

Variable cos_deg : Q -> Q.



End Codec.




End CellCodec.

(** ** The reveal engine *)

Module RevealEngine.

Import JsStringFacts QuantFacts GridFacts.
Local Open Scope string_scope.

Lemma Set_has_In cells key : Set_has cells key = true <-> In key cells.
Proof.
  unfold Set_has. rewrite existsb_exists. split.
  - intros (k & Hk & E). apply String.eqb_eq in E. now subst.
  - intros H. exists key. split; [exact H | apply String.eqb_refl].
Qed.

(** What the loop of [revealAt] does to the set and the flag. *)
Lemma reveal_loop keys : forall cells flag,
  let r := fold_left reveal_step keys (cells, flag) in
  incl cells (fst r) /\
  (List.length cells <= List.length (fst r))%nat /\
  (forall k, In k keys -> In k (fst r)) /\
  (snd r = true <->
   flag = true \/ (List.length cells < List.length (fst r))%nat) /\
  ((forall k, In k keys -> In k cells) -> fst r = cells /\ snd r = flag) /\
  (snd r = false -> fst r = cells) /\
  (NoDup cells -> NoDup (fst r)).
Proof.
  induction keys as [| key keys IH]; intros cells flag; cbn [fold_left].
  - cbv zeta. cbn [fst snd].
    split; [apply incl_refl |]. split; [lia |]. split; [intros k [] |].
    split; [split; [tauto | intros [H | H]; [exact H | lia]] |].
    split; [intros _; split; reflexivity |].
    split; [reflexivity | tauto].
  - destruct (Set_has cells key) eqn:Hk.
    + assert (reveal_step (cells, flag) key = (cells, flag)) as ->
        by (unfold reveal_step; rewrite Hk; reflexivity).
      specialize (IH cells flag). cbv zeta in *.
      destruct IH as (I1 & I2 & I3 & I4 & I5 & I6 & I7).
      apply Set_has_In in Hk.
      split; [exact I1 |]. split; [exact I2 |].
      split; [intros k [<- | H]; [apply I1, Hk | apply I3, H] |].
      split; [exact I4 |].
      split; [intros H; apply I5; intros k H0; apply H; now right |].
      split; assumption.
    + assert (reveal_step (cells, flag) key = ((cells ++ [key])%list, true))
        as -> by (unfold reveal_step, Set_add; rewrite Hk; reflexivity).
      specialize (IH (cells ++ [key])%list true). cbv zeta in *.
      destruct IH as (I1 & I2 & I3 & I4 & I5 & I6 & I7).
      rewrite List.length_app in I2, I4. cbn [List.length] in I2, I4.
      assert (~ In key cells) as Hn.
      { intros H. apply Set_has_In in H. congruence. }
      assert (snd (fold_left reveal_step keys ((cells ++ [key])%list, true))
              = true) as Ht by (apply I4; now left).
      split; [intros k H; apply I1, in_or_app; now left |].
      split; [lia |].
      split; [intros k [<- | H];
              [apply I1, in_or_app; right; now left | auto] |].
      split; [split; [intros _; right; lia | intros _; exact Ht] |].
      split; [intros H; exfalso; apply Hn, H; now left |].
      split; [intros H; rewrite Ht in H; discriminate |].
      intros H. apply I7. apply NoDup_app;
        [exact H | repeat constructor; intros [] |].
      intros k H1 [<- | []]. contradiction.
Qed.

Section Engine.

Variable cos_deg : Q -> Q.
Variable JSON_stringify : list string -> string.

Local Abbreviation revealAt := (revealAt cos_deg JSON_stringify).
Local Abbreviation getRevealCells := (getRevealCells cos_deg).
Local Abbreviation getCellKey := (getCellKey cos_deg).

(** [revealAt] in terms of its loop. *)
Lemma revealAt_unfold lat lng cells w :
  let r := fold_left reveal_step (getRevealCells lat lng) (cells, false) in
  revealAt lat lng cells w =
  (snd r, fst r,
   if snd r then saveExploredCells JSON_stringify (fst r) w else w).
Proof.
  cbv zeta. unfold FogGrid.revealAt.
  destruct (fold_left reveal_step (getRevealCells lat lng) (cells, false))
    as [cells' changed].
  reflexivity.
Qed.

Lemma saveExploredCells_calls cells w :
  ls_setItem_calls (saveExploredCells JSON_stringify cells w) =
  (ls_setItem_calls w ++ [(STORAGE_KEY, JSON_stringify cells)])%list.
Proof.
  unfold saveExploredCells, setItem.
  destruct (ls_available w && _)%bool; reflexivity.
Qed.

(** C2.  A second [revealAt] at the same position returns [false], leaves the
    set as it is and does not touch the storage; and any [revealAt] calls
    [localStorage.setItem], once and with the updated set, exactly when it
    returns [true], which is exactly when the set grew. *)
Theorem revealAt_idempotent lat lng cells w :
  let r1 := revealAt lat lng cells w in
  let r2 := revealAt lat lng (cells_of r1) (world_of r1) in
  (changed_of r2 = false /\ cells_of r2 = cells_of r1 /\
   world_of r2 = world_of r1) /\
  (changed_of r1 = true <->
   (List.length cells < List.length (cells_of r1))%nat) /\
  ls_setItem_calls (world_of r1) =
    (ls_setItem_calls w ++
     (if changed_of r1
      then [(STORAGE_KEY, JSON_stringify (cells_of r1))]
      else []))%list /\
  (changed_of r1 = false -> world_of r1 = w /\ cells_of r1 = cells).
Proof.
  cbv zeta. rewrite !revealAt_unfold. cbv zeta.
  unfold changed_of, cells_of, world_of. cbn [fst snd].
  pose proof (reveal_loop (getRevealCells lat lng) cells false) as L1.
  cbv zeta in L1.
  destruct (fold_left reveal_step (getRevealCells lat lng) (cells, false))
    as [cells1 changed1] eqn:E1.
  cbn [fst snd] in *.
  destruct L1 as (I1 & I2 & I3 & I4 & I5 & I6 & I7).
  pose proof (reveal_loop (getRevealCells lat lng) cells1 false) as L2.
  cbv zeta in L2. destruct L2 as (_ & _ & _ & _ & J5 & _).
  destruct (J5 I3) as [-> ->].
  repeat split.
  - intros H. apply I4 in H as [H | H]; [discriminate | exact H].
  - intros H. apply I4. now right.
  - destruct changed1.
    + apply saveExploredCells_calls.
    + symmetry. apply app_nil_r.
  - now subst.
  - auto.
Qed.

Lemma revealAt_grows lat lng cells w :
  (List.length cells <= List.length (cells_of (revealAt lat lng cells w)))%nat /\
  (forall k, In k cells -> In k (cells_of (revealAt lat lng cells w))) /\
  (NoDup cells -> NoDup (cells_of (revealAt lat lng cells w))).
Proof.
  pose proof (revealAt_unfold lat lng cells w) as E. cbv zeta in E.
  rewrite E. unfold cells_of. cbn [fst snd].
  pose proof (reveal_loop (getRevealCells lat lng) cells false) as L.
  cbv zeta in L. destruct L as (I1 & I2 & _ & _ & _ & _ & I7).
  split; [exact I2 |]. split; [exact I1 | exact I7].
Qed.

(** C5.  Along any sequence of [revealAt] calls the set never shrinks and
    never loses a cell: its size does not decrease, every cell that was in
    it stays in it, and it stays free of duplicates. *)
Theorem revealAll_monotone positions : forall cells w,
  let r := revealAll cos_deg JSON_stringify positions cells w in
  (List.length cells <= List.length (fst r))%nat /\
  (forall k, In k cells -> In k (fst r)) /\
  (NoDup cells -> NoDup (fst r)).
Proof.
  unfold revealAll.
  induction positions as [| [lat lng] positions IH]; intros cells w;
    cbn [fold_left fst snd].
  - cbv zeta. cbn [fst]. auto.
  - destruct (revealAt_grows lat lng cells w) as (G1 & G2 & G3).
    specialize (IH (cells_of (revealAt lat lng cells w))
                   (world_of (revealAt lat lng cells w))).
    cbv zeta in *. destruct IH as (I1 & I2 & I3).
    split; [lia |]. split; auto.
Qed.

Lemma getRevealCells_brush lat lng :
  getRevealCells lat lng = map (cellAt cos_deg lat lng) brush.
Proof. reflexivity. Qed.

Lemma brush_spec dx dy :
  In (dx, dy) brush <->
  (dx * dx + dy * dy <= REVEAL_RADIUS * REVEAL_RADIUS + 1)%Z.
Proof.
  unfold REVEAL_RADIUS. split.
  - unfold brush. cbn [In]. intros H.
    repeat (destruct H as [H | H]; [injection H as <- <-; lia |]).
    destruct H.
  - intros H.
    assert (-2 <= dx <= 2 /\ -2 <= dy <= 2)%Z as [Hx Hy] by nia.
    assert (dx = -2 \/ dx = -1 \/ dx = 0 \/ dx = 1 \/ dx = 2)%Z
      as Cx by lia.
    assert (dy = -2 \/ dy = -1 \/ dy = 0 \/ dy = 1 \/ dy = 2)%Z
      as Cy by lia.
    clear Hx Hy.
    destruct Cx as [-> | [-> | [-> | [-> | ->]]]];
      destruct Cy as [-> | [-> | [-> | [-> | ->]]]];
      try (exfalso; lia); unfold brush; cbn [In]; tauto.
Qed.

(** The latitude field of a pushed key is that of the row [dy] rows from the
    row of the position. *)
Lemma cellAt_row la lng dx dy :
  exists field : string,
    cellAt cos_deg (Fin la) lng (dx, dy) =
    toFixed 6 (Fin (quantize latStep la + inject_Z dy * latStep)) ++ "_" ++ field.
Proof.
  unfold cellAt. rewrite CELL_SIZE_LAT_eq. cbn [of_Z nmul nadd].
  eexists.
  rewrite <- (toFixed6_proper _ _ (quantize_shift latStep la dy
                                    ltac:(discriminate))).
  reflexivity.
Qed.

(** In the row of the position the pushed key is that of the cell [dx]
    columns from the cell of the position. *)
Lemma cellAt_focal_row la ln dx :
  ~ (cos_deg (Qred la) == 0)%Q ->
  cellAt cos_deg (Fin la) (Fin ln) (dx, 0%Z) =
  toFixed 6 (Fin (quantize latStep la)) ++ "_" ++
  toFixed 6
    (Fin (quantize (lngStep (cos_deg (Qred la))) ln +
          inject_Z dx * lngStep (cos_deg (Qred la)))).
Proof.
  intros Hnz. unfold cellAt.
  rewrite CELL_SIZE_LAT_eq, (cellSizeLng_fin cos_deg la Hnz).
  cbn [of_Z nmul nadd].
  rewrite (getCellKey_proper cos_deg
             (la + inject_Z 0 * latStep) la
             (ln + inject_Z dx * lngStep (cos_deg (Qred la)))
             (ln + inject_Z dx * lngStep (cos_deg (Qred la))))
    by (try reflexivity; change (inject_Z 0) with 0%Q; ring).
  rewrite (getCellKey_nonzero cos_deg la _ Hnz).
  rewrite (toFixed6_proper _ _
             (quantize_shift (lngStep (cos_deg (Qred la))) ln dx
                (lngStep_nonzero _ Hnz))).
  reflexivity.
Qed.


(** The offset [(0, 0)] gives the key of the position itself. *)
Lemma cellAt_origin lat lng :
  cellAt cos_deg (Fin lat) (Fin lng) (0, 0)%Z = getCellKey (Fin lat) (Fin lng).
Proof.
  unfold cellAt. rewrite CELL_SIZE_LAT_eq.
  destruct (Qeq_bool (cos_deg (Qred lat)) 0) eqn:E.
  - apply Qeq_bool_iff in E.
    rewrite (cellSizeLng_zero cos_deg lat E), (getCellKey_zero cos_deg lat lng E).
    cbn [of_Z nmul nadd].
    change (inf_times true (inject_Z 0)) with NaN. cbn [nadd].
    assert (getCellKey (Fin (lat + inject_Z 0 * latStep)) NaN =
            toFixed 6 (Fin (quantize latStep (lat + inject_Z 0 * latStep)))
            ++ "_NaN") as -> by reflexivity.
    rewrite (quantize_proper latStep (lat + inject_Z 0 * latStep) lat);
      [reflexivity |].
    change (inject_Z 0) with 0%Q. ring.
  - assert (~ (cos_deg (Qred lat) == 0)%Q) as Hnz.
    { intros H. apply Qeq_bool_iff in H. congruence. }
    rewrite (cellSizeLng_fin cos_deg lat Hnz). cbn [of_Z nmul nadd].
    apply getCellKey_proper; change (inject_Z 0) with 0%Q; ring.
Qed.

(** C10.  The key of the position itself is among the keys [getRevealCells]
    returns, so the set holds it after any [revealAt] at that position. *)
Theorem focal_cell_revealed (lat lng : Q) :
  In (getCellKey (Fin lat) (Fin lng)) (getRevealCells (Fin lat) (Fin lng)) /\
  (forall cells w,
     In (getCellKey (Fin lat) (Fin lng))
        (cells_of (revealAt (Fin lat) (Fin lng) cells w))).
Proof.
  assert (In (getCellKey (Fin lat) (Fin lng))
             (getRevealCells (Fin lat) (Fin lng))) as H.
  { rewrite getRevealCells_brush, <- cellAt_origin.
    apply in_map. apply brush_spec. unfold REVEAL_RADIUS. lia. }
  split; [exact H |].
  intros cells w.
  pose proof (revealAt_unfold (Fin lat) (Fin lng) cells w) as E.
  cbv zeta in E. rewrite E. unfold cells_of. cbn [fst snd].
  pose proof (reveal_loop (getRevealCells (Fin lat) (Fin lng)) cells false)
    as L.
  cbv zeta in L. destruct L as (_ & _ & I3 & _). apply I3, H.
Qed.

End Engine.

End RevealEngine.

(** ** Loading the explored set *)

Module Persistence.

Local Open Scope string_scope.

Lemma add_value_fresh pre k :
  ~ In k pre ->
  add_value (map JStr pre) (JStr k) = map JStr (pre ++ [k]).
Proof.
  intros H. unfold add_value.
  assert (existsb (same_value_zero (JStr k)) (map JStr pre) = false) as ->.
  { apply not_true_is_false. intros E. apply existsb_exists in E.
    destruct E as (v & Hv & Ev). apply in_map_iff in Hv.
    destruct Hv as (k' & <- & Hk'). cbn in Ev.
    apply String.eqb_eq in Ev. subst. contradiction. }
  rewrite map_app. reflexivity.
Qed.

(** [new Set] on an array of distinct strings keeps them all, in order. *)
Lemma new_Set_distinct keys : forall pre,
  NoDup (pre ++ keys) ->
  fold_left add_value (map JStr keys) (map JStr pre) = map JStr (pre ++ keys).
Proof.
  induction keys as [| k keys IH]; intros pre H; cbn [map fold_left].
  - now rewrite app_nil_r.
  - rewrite add_value_fresh.
    + rewrite IH; rewrite <- app_assoc; [reflexivity | exact H].
    + apply NoDup_remove_2 in H. intros Hk. apply H, in_or_app. now left.
Qed.

Section Load.

Variable JSON_parse : string -> Exc json.

Local Abbreviation loadExploredCells := (loadExploredCells JSON_parse).

(** C7.  [loadExploredCells] always returns a set and never throws: the
    empty set when the storage cannot be read, when the key is missing or
    holds the empty string, when the text is not JSON, and when the parsed
    value cannot be iterated; the stored keys, in order, when the text
    parses to an array of distinct strings. *)
Theorem loadExploredCells_safe (w : World) :
  (ls_available w = false -> loadExploredCells w = []) /\
  (ls_available w = true ->
   match lookup STORAGE_KEY (ls_items w) with
   | None => loadExploredCells w = []
   | Some text =>
       (text = "" -> loadExploredCells w = []) /\
       (JSON_parse text = Throw -> loadExploredCells w = []) /\
       (forall v,
          JSON_parse text = Ret v -> iterate v = Throw ->
          loadExploredCells w = []) /\
       (forall keys,
          text <> "" ->
          JSON_parse text = Ret (JArr (map JStr keys)) -> NoDup keys ->
          loadExploredCells w = map JStr keys)
   end).
Proof.
  unfold FogGrid.loadExploredCells, getItem. split.
  - intros ->. reflexivity.
  - intros ->. cbn [bind].
    destruct (lookup STORAGE_KEY (ls_items w)) as [text |]; [| reflexivity].
    destruct text as [| c text].
    + repeat split; try reflexivity. intros keys H. congruence.
    + split; [discriminate |].
      split; [intros ->; reflexivity |].
      split.
      * intros v -> Hv. cbn [bind]. unfold new_Set. rewrite Hv. reflexivity.
      * intros keys _ -> Hk. cbn [bind try_catch]. unfold new_Set.
        cbn [iterate bind try_catch].
        exact (new_Set_distinct keys [] Hk).
Qed.

End Load.

Lemma loadExploredCells_safe_witness :
  loadExploredCells parse_ref world_with_keys = map JStr stored_keys.
Proof.
  pose proof (loadExploredCells_safe parse_ref world_with_keys) as [_ H].
  specialize (H eq_refl). cbn [lookup world_with_keys ls_items] in H.
  change (lookup STORAGE_KEY [(STORAGE_KEY, stringify_ref stored_keys)])
    with (Some (stringify_ref stored_keys)) in H.
  destruct H as (_ & _ & _ & H).
  apply H.
  - discriminate.
  - reflexivity.
  - unfold stored_keys. repeat constructor; cbn [In]; intuition discriminate.
Defined.

End Persistence.

(** ** The coverage estimator *)

Module Coverage.

Import JsStringFacts QuantFacts GridFacts.
Local Open Scope string_scope.

Lemma exploredInArea_bounds (inArea : string -> bool) cells : forall n,
  (n <= fold_left (fun acc key => if inArea key then acc + 1 else acc) cells n
     <= n + Z.of_nat (List.length cells))%Z.
Proof.
  induction cells as [| key cells IH]; intros n; cbn [fold_left List.length].
  - lia.
  - destruct (inArea key).
    + specialize (IH (n + 1)%Z). lia.
    + specialize (IH n). lia.
Qed.

(** [Math.ceil] of a number that is not negative is not negative. *)
Lemma Qceiling_nonneg q : (0 <= q)%Q -> (0 <= Qceiling q)%Z.
Proof.
  intros H. change 0%Z with (Qceiling 0). now apply Qceiling_resp_le.
Qed.

(** The percentage [x = N / T * 100] of a count [N] in a total [T]. *)
Lemma percent_facts (N T x : Q) :
  (0 < T)%Q -> (0 <= N)%Q -> (x == N / T * 100)%Q ->
  (0 <= x)%Q /\ (N == 0 -> x == 0)%Q /\
  (100 <= x + (1 # 2) -> 199 * T <= 200 * N)%Q.
Proof.
  intros HT HN Ex.
  assert (x * T == 100 * N)%Q as Em by (rewrite Ex; field; lra).
  assert (0 <= x)%Q as Hx.
  { destruct (Qlt_le_dec x 0) as [L | L]; [| exact L].
    exfalso. assert (0 < (- x) * T)%Q by (apply Qmult_lt_0_compat; lra). lra. }
  split; [exact Hx |]. split.
  - intros E. rewrite Ex, E. field. lra.
  - intros H.
    assert (0 <= (x - (199 # 2)) * T)%Q by (apply Qmult_le_0_compat; lra).
    lra.
Qed.

Section Estimator.

Variable cos_deg : Q -> Q.

Lemma coverage_totalCells_fin lat r :
  (0 < cos_deg (Qred lat))%Q ->
  coverage_totalCells cos_deg (Fin lat) (Fin r) =
  Fin (inject_Z (steps r) * inject_Z (steps r)).
Proof.
  intros Hc. set (c := cos_deg (Qred lat)) in *.
  assert (Hnz : ~ (c == 0)%Q) by (intros E; rewrite E in Hc; discriminate Hc).
  unfold coverage_totalCells. rewrite (cellSizeLng_fin cos_deg lat Hnz).
  fold c. rewrite CELL_SIZE_LAT_eq.
  unfold cos_of_degrees, METERS_PER_DEG_LAT. fold c. cbn [nmul].
  assert (Qeq_bool (111320 * c) 0 = false) as E1.
  { apply Qeq_bool_false. intros E. apply Hnz. nra. }
  assert (Qeq_bool (lngStep c) 0 = false) as E2
    by (apply Qeq_bool_false, lngStep_nonzero, Hnz).
  unfold ndiv. rewrite E1, E2.
  change (Qeq_bool 111320 0) with false.
  change (Qeq_bool latStep 0) with false.
  cbn [nmul Math_ceil]. unfold steps.
  rewrite (Qceiling_comp (r / 111320 * 2 / latStep) (r / 25))
    by (unfold latStep; field).
  rewrite (Qceiling_comp (r / (111320 * c) * 2 / lngStep c) (r / 25))
    by (unfold lngStep; field; exact Hnz).
  reflexivity.
Qed.


End Estimator.



End Coverage.

(** ** The repaint pass of the overlay *)

Module Renderer.

Local Open Scope string_scope.

(** The four comparisons of the culling test on finite rectangles. *)
Lemma outsideViewport_finite s n w e vS vN vW vE :
  outsideViewport (rectangle s n w e)
    {| getSouth := Fin vS; getNorth := Fin vN;
       getWest := Fin vW; getEast := Fin vE |} = false <->
  (vS - margin <= n /\ s <= vN + margin /\
   vW - margin <= e /\ w <= vE + margin)%Q.
Proof.
  unfold outsideViewport, rectangle, ngt, nlt, nsub, nadd, nneg, MARGIN.
  cbn [south north west east getSouth getNorth getWest getEast].
  fold margin.
  rewrite !orb_false_iff, !negb_false_iff, !Qle_bool_iff.
  unfold Qminus. tauto.
Qed.

(** Two proper rectangles meet exactly when each starts before the other
    ends, along both axes. *)
Lemma rectangles_meet_iff s n w e s' n' w' e' :
  (s <= n)%Q -> (w <= e)%Q -> (s' <= n')%Q -> (w' <= e')%Q ->
  rectangles_meet s n w e s' n' w' e' <->
  (s' <= n /\ s <= n' /\ w' <= e /\ w <= e')%Q.
Proof.
  intros H1 H2 H3 H4. unfold rectangles_meet, in_rectangle. split.
  - intros (p & q & ((A1 & A2) & (A3 & A4)) & ((B1 & B2) & (B3 & B4))).
    repeat split; lra.
  - intros (A & B & C & D).
    exists (if Qlt_le_dec s s' then s' else s),
           (if Qlt_le_dec w w' then w' else w).
    destruct (Qlt_le_dec s s'), (Qlt_le_dec w w'); repeat split; lra.
Qed.

Section Pass.

Variable cos_deg : Q -> Q.

Local Abbreviation getCellBounds := (getCellBounds cos_deg).
Local Abbreviation visible map :=
  (fun key => negb (outsideViewport (getCellBounds key) (getBounds map))).

(** The loop appends the draws of the cells it does not skip. *)
Lemma update_loop map explored : forall ops,
  fold_left (update_cell cos_deg map) explored ops =
  (ops ++ flat_map (fun key => eraseCell map (getCellBounds key))
            (filter (visible map) explored))%list.
Proof.
  induction explored as [| key explored IH]; intros ops;
    cbn [fold_left filter flat_map].
  - now rewrite app_nil_r.
  - rewrite IH. unfold update_cell at 1.
    destruct (outsideViewport (getCellBounds key) (getBounds map));
      cbn [negb flat_map]; [reflexivity |].
    now rewrite <- app_assoc.
Qed.

Lemma erase_count map drawn :
  List.length
    (filter is_gradient_erase
       (flat_map (fun key => eraseCell map (getCellBounds key)) drawn))
  = List.length drawn.
Proof.
  induction drawn as [| key drawn IH]; [reflexivity |].
  cbn [flat_map]. rewrite filter_app, List.length_app, IH. reflexivity.
Qed.


End Pass.


(** On the sample layer the pass draws the near cell and skips the far one. *)
Example update_sample :
  map (fun key =>
         outsideViewport (getCellBounds cos_ref key) (getBounds sample_view))
      (_exploredCells sample_layer) = [false; true] /\
  List.length
    (filter is_gradient_erase (_update cos_ref sample_layer (Some (Fin 2))))
    = 1%nat.
Proof. vm_compute. split; reflexivity. Qed.

End Renderer.

(** ** The scenario at (42.6977, 23.3219) *)

Module Scenario.

Import JsStringFacts QuantFacts GridFacts.
Local Open Scope string_scope.

(** Two numbers that [toFixed 6] prints alike are within a millionth. *)
Lemma toFixed6_eq_close p q :
  toFixed 6 (Fin p) = toFixed 6 (Fin q) -> (Qabs (p - q) <= micro_deg)%Q.
Proof.
  intros H.
  destruct (parseFloat_toFixed6 p) as (v & Ev & Hv).
  destruct (parseFloat_toFixed6 q) as (v' & Ev' & Hv').
  rewrite H, Ev' in Ev. injection Ev as <-.
  pose proof (round6_error p) as Ep. pose proof (round6_error q) as Eq.
  rewrite <- Hv in Ep. rewrite <- Hv' in Eq.
  apply Qabs_Qle_condition in Ep, Eq. apply Qabs_Qle_condition.
  unfold half_micro, micro_deg in *. split; lra.
Qed.

(** Equal keys have equal fields. *)
Lemma key_fields_inj a b a' b' :
  toFixed 6 a ++ "_" ++ toFixed 6 b = toFixed 6 a' ++ "_" ++ toFixed 6 b' ->
  toFixed 6 a = toFixed 6 a' /\ toFixed 6 b = toFixed 6 b'.
Proof.
  intros H. apply (f_equal (split "_")) in H.
  rewrite !split_key in H by apply toFixed6_no_sep.
  injection H as -> ->. split; reflexivity.
Qed.

(** Two latitudes whose quantized values are within a millionth are in the
    same row of cells. *)
Lemma same_row x y :
  (Qabs (quantize latStep x - quantize latStep y) <= micro_deg)%Q ->
  Qfloor (x / latStep) = Qfloor (y / latStep).
Proof.
  unfold quantize. set (k := Qfloor (x / latStep)).
  set (k' := Qfloor (y / latStep)). intros H.
  apply Qabs_Qle_condition in H. unfold micro_deg in H.
  assert (latStep == 5 # 11132)%Q as E by reflexivity.
  rewrite E in H.
  destruct (Z.lt_trichotomy k k') as [L | [L | L]]; [| exact L |]; exfalso.
  - assert (k + 1 <= k')%Z as L' by lia. rewrite Zle_Qle in L'.
    rewrite inject_Z_plus in L'. change (inject_Z 1) with 1%Q in L'. lra.
  - assert (k' + 1 <= k)%Z as L' by lia. rewrite Zle_Qle in L'.
    rewrite inject_Z_plus in L'. change (inject_Z 1) with 1%Q in L'. lra.
Qed.

Section Keys.

Variable cos_deg : Q -> Q.

Local Abbreviation getCellKey := (getCellKey cos_deg).

(** Equal keys come from quantized corners within a millionth of a degree. *)
Lemma getCellKey_eq_close lat lng lat' lng' :
  ~ (cos_deg (Qred lat) == 0)%Q -> ~ (cos_deg (Qred lat') == 0)%Q ->
  getCellKey (Fin lat) (Fin lng) = getCellKey (Fin lat') (Fin lng') ->
  (Qabs (quantize latStep lat - quantize latStep lat') <= micro_deg /\
   Qabs (quantize (lngStep (cos_deg (Qred lat))) lng -
         quantize (lngStep (cos_deg (Qred lat'))) lng') <= micro_deg)%Q.
Proof.
  intros H H' E.
  rewrite (getCellKey_nonzero cos_deg lat lng H) in E.
  rewrite (getCellKey_nonzero cos_deg lat' lng' H') in E.
  apply key_fields_inj in E as [E1 E2].
  split; apply toFixed6_eq_close; assumption.
Qed.

Lemma row_of_lat0 : Qfloor (lat0 / latStep) = 95062%Z.
Proof. vm_compute. reflexivity. Qed.

(** The cell of the scenario's position along its own latitude. *)
Lemma east_same_cell e :
  (7349417 # 10000000 <= cos_deg (Qred lat0) <= 7349419 # 10000000)%Q ->
  (-1 <= e <= 48)%Q ->
  getCellKey (Fin lat0) (Fin (east_of cos_deg e)) =
  getCellKey (Fin lat0) (Fin lng0).
Proof.
  intros Hc He. unfold east_of. set (c := cos_deg (Qred lat0)) in *.
  assert (Hnz : ~ (c == 0)%Q) by (intros E; destruct Hc; lra).
  rewrite !(getCellKey_nonzero cos_deg lat0 _ Hnz). fold c.
  do 2 f_equal. f_equal. f_equal. unfold quantize. do 2 f_equal.
  assert (forall d : Q, (-1 <= d <= 48)%Q ->
            Qfloor ((lng0 + d / (111320 * c)) / lngStep c) = 38161%Z) as F.
  { intros d Hd. apply Qfloor_unique.
    - assert ((lng0 + d / (111320 * c)) / lngStep c ==
              lng0 * 111320 * (1 # 50) * c + d * (1 # 50))%Q as ->
        by (unfold lngStep; field; exact Hnz).
      unfold lng0. change (inject_Z 38161) with 38161%Q. lra.
    - assert ((lng0 + d / (111320 * c)) / lngStep c ==
              lng0 * 111320 * (1 # 50) * c + d * (1 # 50))%Q as ->
        by (unfold lngStep; field; exact Hnz).
      unfold lng0. change (inject_Z (38161 + 1)) with 38162%Q. lra. }
  rewrite (F e He).
  rewrite (Qfloor_comp (lng0 / lngStep c) ((lng0 + 0 / (111320 * c)) / lngStep c)).
  - symmetry. apply F. lra.
  - unfold lngStep. field. exact Hnz.
Qed.

(** No point 200 m away has the key of the scenario's position. *)
Lemma far_other_cell lat lng :
  (7349417 # 10000000 <= cos_deg (Qred lat0) <= 7349419 # 10000000)%Q ->
  metres_apart cos_deg lat0 lng0 lat lng 200 ->
  (0 < cos_deg (Qred lat))%Q ->
  (cos_deg (Qred lat0) <= 2 * cos_deg (Qred lat))%Q ->
  getCellKey (Fin lat) (Fin lng) <> getCellKey (Fin lat0) (Fin lng0).
Proof.
  intros Hc0 Hd Hc Hc2 Heq. unfold metres_apart in Hd. cbv zeta in Hd.
  set (c0 := cos_deg (Qred lat0)) in *. set (c := cos_deg (Qred lat)) in *.
  assert (Hnz0 : ~ (c0 == 0)%Q) by (intros E; destruct Hc0; lra).
  assert (Hnz : ~ (c == 0)%Q) by (intros E; lra).
  apply (getCellKey_eq_close lat lng lat0 lng0 Hnz Hnz0) in Heq.
  fold c c0 in Heq. destruct Heq as [Hlat Hlng].
  (* the row *)
  apply same_row in Hlat. rewrite row_of_lat0 in Hlat.
  destruct (quantize_bounds latStep lat latStep_pos) as [R1 R2].
  unfold quantize in R1, R2. rewrite Hlat in R1, R2.
  assert (latStep == 5 # 11132)%Q as El by reflexivity.
  rewrite El in R1, R2. change (inject_Z 95062) with 95062%Q in R1, R2.
  set (dy := ((lat - lat0) * 111320)%Q) in *.
  set (dx := ((lng - lng0) * 111320 * c0)%Q) in *.
  assert (-797 # 100 <= dy <= 4204 # 100)%Q as Hdy
    by (unfold dy, lat0; split; lra).
  (* the column *)
  set (cl0 := lngStep c0) in *. set (cl := lngStep c) in *.
  assert (0 < cl0)%Q as P0 by (apply lngStep_pos; lra).
  assert (0 < cl)%Q as P by (apply lngStep_pos; exact Hc).
  assert (cl0 * c0 == 50 / 111320)%Q as M0
    by (unfold cl0, lngStep; field; exact Hnz0).
  assert (4 # 10000 <= cl0)%Q as B0.
  { assert (0 <= cl0 * (1 - c0))%Q by (apply Qmult_le_0_compat; lra).
    assert (50 / 111320 == 5 # 11132)%Q as E5 by reflexivity.
    rewrite E5 in M0. lra. }
  assert (cl <= 2 * cl0)%Q as B.
  { assert (2 * cl0 - cl == (2 * c - c0) * (50 / (111320 * (c0 * c))))%Q as E
      by (unfold cl0, cl, lngStep; field; split; assumption).
    assert (0 < 50 / (111320 * (c0 * c)))%Q as Pq.
    { apply Qlt_shift_div_l; [| lra].
      assert (0 < c0 * c)%Q by (apply Qmult_lt_0_compat; lra). lra. }
    assert (0 <= (2 * c - c0) * (50 / (111320 * (c0 * c))))%Q
      by (apply Qmult_le_0_compat; lra).
    lra. }
  assert (dx * cl0 == (lng - lng0) * 50)%Q as Ex
    by (unfold dx, cl0, lngStep; field; exact Hnz0).
  destruct (quantize_bounds cl lng P) as [G1 G2].
  destruct (quantize_bounds cl0 lng0 P0) as [G3 G4].
  apply Qabs_Qle_condition in Hlng. unfold micro_deg in Hlng.
  set (A := quantize cl lng) in *. set (A0 := quantize cl0 lng0) in *.
  assert (0 <= (dy + (797 # 100)) * ((4204 # 100) - dy))%Q as Sq
    by (apply Qmult_le_0_compat; lra).
  destruct (Qlt_le_dec 195 dx) as [East | NotEast].
  - assert (0 < (dx - 195) * cl0)%Q by (apply Qmult_lt_0_compat; lra). lra.
  - destruct (Qlt_le_dec dx (-195)) as [West | NotWest].
    + assert (0 < (-195 - dx) * cl0)%Q by (apply Qmult_lt_0_compat; lra). lra.
    + assert (0 <= (195 - dx) * (195 + dx))%Q
        by (apply Qmult_le_0_compat; lra).
      lra.
Qed.

(** C8, as the code has it.  With the cosine of 42.6977 degrees between
    0.7349417 and 0.7349419, [getCellKey(42.6977, 23.3219)] is the key of
    every point at that latitude from 1 m west to 48 m east of the position,
    so of the point 20 m due east; and it is the key of no point 200 m away
    whose cosine is positive and at least half that of the position. *)
Theorem scenario_same_cell_and_far_cell :
  (7349417 # 10000000 <= cos_deg (Qred lat0) <= 7349419 # 10000000)%Q ->
  scenario_keys cos_deg.
Proof.
  intros Hc. split.
  - intros e He. now apply east_same_cell.
  - intros lat lng. now apply far_other_cell.
Qed.

End Keys.

(** The point 20 m due south of the position is in the next row of cells. *)
Lemma key_20m_south_differs :
  Qeq_bool
    (((lat0 - (20 # 111320) - lat0) * 111320) *
     ((lat0 - (20 # 111320) - lat0) * 111320) +
     ((lng0 - lng0) * 111320 * cos_ref (Qred lat0)) *
     ((lng0 - lng0) * 111320 * cos_ref (Qred lat0)))
    (20 * 20) = true /\
  getCellKey cos_ref (Fin lat0) (Fin lng0) = "42.697628_23.321882" /\
  getCellKey cos_ref (Fin (lat0 - (20 # 111320))) (Fin lng0)
    = "42.697179_23.321815".
Proof. vm_compute. repeat split; reflexivity. Qed.

Lemma scenario_witness :
  scenario_keys cos_ref /\
  getCellKey cos_ref (Fin lat0) (Fin (east_of cos_ref 20)) =
    getCellKey cos_ref (Fin lat0) (Fin lng0) /\
  getCellKey cos_ref (Fin (lat0 + (200 # 111320))) (Fin lng0) <>
    getCellKey cos_ref (Fin lat0) (Fin lng0).
Proof.
  assert (scenario_keys cos_ref) as H.
  { apply (scenario_same_cell_and_far_cell cos_ref).
    vm_compute. split; discriminate. }
  split; [exact H |]. destruct H as [He Hf]. split.
  - apply He. vm_compute. split; discriminate.
  - apply Hf.
    + vm_compute. reflexivity.
    + vm_compute. reflexivity.
    + vm_compute. discriminate.
Defined.

End Scenario.

(** ** More on the cell codec: the shape of keys and when two keys agree *)

Module CodecMore.

Import JsStringFacts QuantFacts GridFacts.
Local Open Scope string_scope.

(** Quantized values within a millionth of each other, on a grid coarser
    than a millionth, are the same multiple of the step. *)
Lemma same_multiple step x y :
  (micro_deg < step)%Q ->
  (Qabs (quantize step x - quantize step y) <= micro_deg)%Q ->
  Qfloor (x / step) = Qfloor (y / step).
Proof.
  unfold quantize. set (k := Qfloor (x / step)).
  set (k' := Qfloor (y / step)). intros Hs H.
  apply Qabs_Qle_condition in H. unfold micro_deg in *.
  destruct (Z.lt_trichotomy k k') as [L | [L | L]]; [| exact L |]; exfalso.
  - assert (k + 1 <= k')%Z as L' by lia. rewrite Zle_Qle in L'.
    rewrite inject_Z_plus in L'. change (inject_Z 1) with 1%Q in L'.
    assert (0 <= (inject_Z k' - inject_Z k - 1) * step)%Q
      by (apply Qmult_le_0_compat; lra).
    lra.
  - assert (k' + 1 <= k)%Z as L' by lia. rewrite Zle_Qle in L'.
    rewrite inject_Z_plus in L'. change (inject_Z 1) with 1%Q in L'.
    assert (0 <= (inject_Z k - inject_Z k' - 1) * step)%Q
      by (apply Qmult_le_0_compat; lra).
    lra.
Qed.

(** A cosine of at most 1 makes the longitude step at least the latitude
    step. *)
Lemma lngStep_ge c : (0 < c <= 1)%Q -> (5 # 11132 <= lngStep c)%Q.
Proof.
  intros [H0 H1].
  assert (0 < lngStep c)%Q as P by (apply lngStep_pos; exact H0).
  assert (lngStep c * c == 5 # 11132)%Q as M
    by (unfold lngStep; field; intros E; rewrite E in H0; discriminate H0).
  assert (0 <= lngStep c * (1 - c))%Q by (apply Qmult_le_0_compat; lra).
  lra.
Qed.

Section Codec.

Variable cos_deg : Q -> Q.

Local Abbreviation getCellKey := (getCellKey cos_deg).
Local Abbreviation getCellBounds := (getCellBounds cos_deg).

(** X1.  Whatever the two numbers, NaN and the infinities included, the key
    has exactly one separator: it splits into the two fields it was built
    from, and [getCellBounds] reads its south-west corner by [parseFloat] of
    those fields. *)
Theorem getCellKey_two_fields (lat lng : num) :
  exists a b : string,
    getCellKey lat lng = a ++ "_" ++ b /\
    no_sep a = true /\ no_sep b = true /\
    split "_" (getCellKey lat lng) = [a; b] /\
    south (getCellBounds (getCellKey lat lng)) = parseFloat a /\
    west (getCellBounds (getCellKey lat lng)) = parseFloat b.
Proof.
  unfold FogGrid.getCellKey. cbv zeta.
  set (a := toFixed 6 _). set (b := toFixed 6 _).
  exists a, b.
  pose proof (toFixed6_no_sep
                (Math_floor (lat / CELL_SIZE_LAT) * CELL_SIZE_LAT)%num) as Ha.
  pose proof (toFixed6_no_sep
                (Math_floor (lng / cellSizeLng cos_deg lat) *
                 cellSizeLng cos_deg lat)%num) as Hb.
  fold a in Ha. fold b in Hb.
  split; [reflexivity |]. split; [exact Ha |]. split; [exact Hb |].
  unfold FogGrid.getCellBounds. cbv zeta. cbn [south west].
  rewrite (split_key a b Ha Hb). repeat split; reflexivity.
Qed.

(** The latitude field, whatever the longitude. *)
Lemma getCellKey_lat_field lat (lng : num) :
  getCellKey (Fin lat) lng =
  toFixed 6 (Fin (quantize latStep lat)) ++ "_" ++
  toFixed 6
    (Math_floor (lng / cellSizeLng cos_deg (Fin lat)) *
     cellSizeLng cos_deg (Fin lat))%num.
Proof. reflexivity. Qed.

(** X3.  Rounding to six decimals never merges two cells.  Keys of
    positions in different rows differ; and at a latitude whose cosine is in
    (0, 1], two longitudes get the same key exactly when they floor to the
    same multiple of the longitude step. *)
Theorem getCellKey_same_cell_iff lat :
  (0 < cos_deg (Qred lat) <= 1)%Q ->
  (forall lng lng' : Q,
     getCellKey (Fin lat) (Fin lng) = getCellKey (Fin lat) (Fin lng') <->
     Qfloor (lng / lngStep (cos_deg (Qred lat))) =
     Qfloor (lng' / lngStep (cos_deg (Qred lat)))) /\
  (forall (lat' : Q) (lng lng' : num),
     getCellKey (Fin lat) lng = getCellKey (Fin lat') lng' ->
     Qfloor (lat / latStep) = Qfloor (lat' / latStep)).
Proof.
  intros Hc. set (c := cos_deg (Qred lat)) in *.
  assert (Hnz : ~ (c == 0)%Q) by (intros E; destruct Hc; lra).
  split.
  - intros lng lng'.
    rewrite !(getCellKey_nonzero cos_deg lat _ Hnz). fold c. split.
    + intros E. apply Scenario.key_fields_inj in E as [_ E].
      apply Scenario.toFixed6_eq_close in E.
      apply (same_multiple (lngStep c)); [| exact E].
      pose proof (lngStep_ge c Hc). unfold micro_deg. lra.
    + intros E. unfold quantize. rewrite E. reflexivity.
  - intros lat' lng lng' E. rewrite !getCellKey_lat_field in E.
    apply Scenario.key_fields_inj in E as [E _].
    apply Scenario.toFixed6_eq_close in E.
    apply Scenario.same_row. exact E.
Qed.

End Codec.

Lemma getCellKey_same_cell_iff_witness :
  (forall lng lng' : Q,
     getCellKey cos_ref (Fin lat0) (Fin lng) =
     getCellKey cos_ref (Fin lat0) (Fin lng') <->
     Qfloor (lng / lngStep (cos_ref (Qred lat0))) =
     Qfloor (lng' / lngStep (cos_ref (Qred lat0)))) /\
  (forall (lat' : Q) (lng lng' : num),
     getCellKey cos_ref (Fin lat0) lng = getCellKey cos_ref (Fin lat') lng' ->
     Qfloor (lat0 / latStep) = Qfloor (lat' / latStep)).
Proof.
  apply (getCellKey_same_cell_iff cos_ref lat0).
  vm_compute. split; [reflexivity | discriminate].
Defined.

End CodecMore.

(** ** More on the reveal engine: what a reveal adds, and what it stores *)

Module RevealMore.

Import JsStringFacts QuantFacts GridFacts RevealEngine.
Local Open Scope string_scope.

(** The loop of [revealAt] appends, in order, the keys that were not in the
    set, each once. *)
Lemma reveal_loop_added keys : forall cells flag,
  exists added : list string,
    fst (fold_left reveal_step keys (cells, flag)) = (cells ++ added)%list /\
    NoDup added /\
    (forall k, In k added <-> In k keys /\ ~ In k cells) /\
    (List.length added <= List.length keys)%nat.
Proof.
  induction keys as [| key keys IH]; intros cells flag; cbn [fold_left].
  - exists []. rewrite app_nil_r. cbn [fst In List.length].
    split; [reflexivity |]. split; [constructor |]. split; [tauto | lia].
  - destruct (Set_has cells key) eqn:Hk.
    + assert (reveal_step (cells, flag) key = (cells, flag)) as ->
        by (unfold reveal_step; rewrite Hk; reflexivity).
      apply Set_has_In in Hk.
      destruct (IH cells flag) as (added & E & N & I & L).
      exists added. split; [exact E |]. split; [exact N |]. split.
      * intros k. rewrite I. cbn [In]. split; [tauto |].
        intros [[<- | H] H']; [contradiction | tauto].
      * cbn [List.length]. lia.
    + assert (reveal_step (cells, flag) key = ((cells ++ [key])%list, true))
        as -> by (unfold reveal_step, Set_add; rewrite Hk; reflexivity).
      assert (~ In key cells) as Hn.
      { intros H. apply Set_has_In in H. congruence. }
      destruct (IH (cells ++ [key])%list true) as (added & E & N & I & L).
      exists (key :: added).
      split; [rewrite E, <- List.app_assoc; reflexivity |].
      split.
      * constructor; [| exact N].
        intros H. apply I in H as [_ H]. apply H, in_or_app.
        right. now left.
      * split.
        -- intros k. cbn [In]. rewrite I. split.
           ++ intros [<- | [H H']]; [tauto |].
              split; [tauto |]. intros Hc. apply H', in_or_app. now left.
           ++ intros [[<- | H] H']; [tauto |].
              destruct (string_dec key k) as [<- | D]; [tauto |].
              right. split; [exact H |].
              intros Hc. apply in_app_or in Hc as [Hc | [Hc | []]];
                [contradiction | congruence].
        -- cbn [List.length]. lia.
Qed.

Lemma lookup_store_same k v items : lookup k (store k v items) = Some v.
Proof.
  induction items as [| [k' v'] items IH]; cbn [store lookup].
  - now rewrite String.eqb_refl.
  - destruct (String.eqb k k') eqn:E; cbn [lookup].
    + now rewrite String.eqb_refl.
    + now rewrite E.
Qed.

Lemma lookup_store_other k k' v items :
  k <> k' -> lookup k (store k' v items) = lookup k items.
Proof.
  intros D. induction items as [| [k'' v''] items IH]; cbn [store lookup].
  - destruct (String.eqb_spec k k'); [contradiction | reflexivity].
  - destruct (String.eqb_spec k' k'') as [<- | D']; cbn [lookup].
    + destruct (String.eqb_spec k k'); [contradiction | reflexivity].
    + destruct (String.eqb_spec k k''); [reflexivity | exact IH].
Qed.

Section Engine.

Variable cos_deg : Q -> Q.
Variable JSON_stringify : list string -> string.
Variable JSON_parse : string -> Exc json.

Local Abbreviation revealAt := (revealAt cos_deg JSON_stringify).
Local Abbreviation getRevealCells := (getRevealCells cos_deg).
Local Abbreviation getCellKey := (getCellKey cos_deg).
Local Abbreviation saveExploredCells := (saveExploredCells JSON_stringify).
Local Abbreviation loadExploredCells := (loadExploredCells JSON_parse).

(** X4.  [revealAt] only appends: the set it leaves is the given set
    followed by the keys of [getRevealCells] that were not in it, each once,
    so by at most 21 keys. *)
Theorem revealAt_appends lat lng cells w :
  exists added : list string,
    cells_of (revealAt lat lng cells w) = (cells ++ added)%list /\
    NoDup added /\
    (forall k, In k added <-> In k (getRevealCells lat lng) /\ ~ In k cells) /\
    (List.length added <= 21)%nat.
Proof.
  pose proof (revealAt_unfold cos_deg JSON_stringify lat lng cells w) as E.
  cbv zeta in E. rewrite E. unfold cells_of. cbn [fst snd].
  destruct (reveal_loop_added (getRevealCells lat lng) cells false)
    as (added & E' & N & I & L).
  exists added. split; [exact E' |]. split; [exact N |].
  split; [exact I |]. exact L.
Qed.

(** X5.  On the empty set [revealAt] always returns [true], whatever the
    position, leaves exactly the keys of [getRevealCells], each once, and
    calls [setItem] once. *)
Theorem revealAt_empty lat lng w :
  changed_of (revealAt lat lng [] w) = true /\
  NoDup (cells_of (revealAt lat lng [] w)) /\
  (forall k,
     In k (cells_of (revealAt lat lng [] w)) <->
     In k (getRevealCells lat lng)) /\
  ls_setItem_calls (world_of (revealAt lat lng [] w)) =
    (ls_setItem_calls w ++
     [(STORAGE_KEY, JSON_stringify (cells_of (revealAt lat lng [] w)))])%list.
Proof.
  pose proof (revealAt_unfold cos_deg JSON_stringify lat lng [] w) as E.
  cbv zeta in E. rewrite E. unfold changed_of, cells_of, world_of.
  cbn [fst snd].
  pose proof (reveal_loop (getRevealCells lat lng) [] false) as L.
  cbv zeta in L. destruct L as (_ & _ & I3 & I4 & _ & _ & I7).
  assert (snd (fold_left reveal_step (getRevealCells lat lng) ([], false))
          = true) as Hc.
  { apply I4. right. cbn [List.length].
    assert (In (cellAt cos_deg lat lng (-1, -2)%Z)
               (fst (fold_left reveal_step (getRevealCells lat lng)
                       ([], false)))) as H.
    { apply I3. rewrite (getRevealCells_brush cos_deg). now left. }
    destruct (fst (fold_left reveal_step (getRevealCells lat lng) ([], false)));
      [destruct H | cbn [List.length]; lia]. }
  rewrite Hc. split; [reflexivity |].
  split; [apply I7; constructor |].
  split.
  - intros k. split; [| apply I3].
    destruct (reveal_loop_added (getRevealCells lat lng) [] false)
      as (added & E' & _ & I & _).
    rewrite E'. cbn [app]. intros H. now apply I.
  - apply saveExploredCells_calls.
Qed.

(** X6.  The storage never decides what [revealAt] returns or leaves in the
    set, and [revealAt] touches nothing of the storage but its own key: a
    storage that is unavailable or full keeps all its items. *)
Theorem revealAt_storage_frame lat lng cells w w' :
  changed_of (revealAt lat lng cells w) = changed_of (revealAt lat lng cells w')
  /\
  cells_of (revealAt lat lng cells w) = cells_of (revealAt lat lng cells w') /\
  ls_available (world_of (revealAt lat lng cells w)) = ls_available w /\
  ls_quota (world_of (revealAt lat lng cells w)) = ls_quota w /\
  (forall k,
     k <> STORAGE_KEY ->
     lookup k (ls_items (world_of (revealAt lat lng cells w))) =
     lookup k (ls_items w)) /\
  (ls_available w = false \/
   (ls_quota w <
    String.length (JSON_stringify (cells_of (revealAt lat lng cells w))))%nat ->
   ls_items (world_of (revealAt lat lng cells w)) = ls_items w).
Proof.
  pose proof (revealAt_unfold cos_deg JSON_stringify lat lng cells w) as E.
  pose proof (revealAt_unfold cos_deg JSON_stringify lat lng cells w') as E'.
  cbv zeta in E, E'. rewrite E, E'. unfold changed_of, cells_of, world_of.
  cbn [fst snd].
  set (r := fold_left reveal_step (getRevealCells lat lng) (cells, false)).
  split; [reflexivity |]. split; [reflexivity |].
  destruct (snd r); [| repeat split; reflexivity].
  unfold FogGrid.saveExploredCells, setItem.
  destruct (ls_available w) eqn:A; cbn [andb].
  - destruct (Nat.leb_spec (String.length (JSON_stringify (fst r)))
                (ls_quota w)) as [Q | Q]; cbn [snd ls_available ls_quota ls_items].
    + split; [reflexivity |]. split; [reflexivity |]. split.
      * intros k D. now apply lookup_store_other.
      * intros [F | F]; [discriminate | lia].
    + repeat split; reflexivity.
  - cbn [snd ls_available ls_quota ls_items]. repeat split; reflexivity.
Qed.

(** Loading right after a save that the storage took. *)
Lemma load_after_save cells w :
  ls_available w = true ->
  (String.length (JSON_stringify cells) <= ls_quota w)%nat ->
  JSON_stringify cells <> "" ->
  JSON_parse (JSON_stringify cells) = Ret (JArr (map JStr cells)) ->
  NoDup cells ->
  loadExploredCells (saveExploredCells cells w) = map JStr cells.
Proof.
  intros A Q N P D.
  unfold FogGrid.saveExploredCells, setItem. rewrite A. cbn [andb].
  apply Nat.leb_le in Q. rewrite Q. cbn [snd].
  unfold FogGrid.loadExploredCells, getItem.
  cbn [ls_available ls_items bind]. rewrite lookup_store_same.
  destruct (JSON_stringify cells) as [| c text] eqn:T; [congruence |].
  rewrite P. cbn [bind try_catch]. unfold new_Set. cbn [iterate bind try_catch].
  exact (Persistence.new_Set_distinct cells [] D).
Qed.

(** X7.  Round trip through the storage: when the storage is available and
    the text fits, and [JSON.parse] reads back what [JSON.stringify] wrote
    (a text that is not empty), [loadExploredCells] after
    [saveExploredCells] returns the saved set, whatever was stored before. *)
Theorem save_then_load cells w :
  ls_available w = true ->
  (String.length (JSON_stringify cells) <= ls_quota w)%nat ->
  JSON_stringify cells <> "" ->
  JSON_parse (JSON_stringify cells) = Ret (JArr (map JStr cells)) ->
  NoDup cells ->
  loadExploredCells (saveExploredCells cells w) = map JStr cells.
Proof. exact (load_after_save cells w). Qed.

(** X8.  What a reveal stores is the set it leaves in memory: after a
    [revealAt] that returned [true] on a duplicate-free set, with a storage
    that takes the write, [loadExploredCells] returns that very set. *)
Theorem revealAt_then_load lat lng cells w :
  let r := revealAt lat lng cells w in
  NoDup cells ->
  changed_of r = true ->
  ls_available w = true ->
  (String.length (JSON_stringify (cells_of r)) <= ls_quota w)%nat ->
  JSON_stringify (cells_of r) <> "" ->
  JSON_parse (JSON_stringify (cells_of r)) = Ret (JArr (map JStr (cells_of r))) ->
  loadExploredCells (world_of r) = map JStr (cells_of r).
Proof.
  cbv zeta.
  pose proof (revealAt_unfold cos_deg JSON_stringify lat lng cells w) as E.
  cbv zeta in E. rewrite E. unfold changed_of, cells_of, world_of.
  cbn [fst snd]. intros D C A Q N P. rewrite C.
  apply load_after_save; try assumption.
  pose proof (reveal_loop (getRevealCells lat lng) cells false) as L.
  cbv zeta in L. destruct L as (_ & _ & _ & _ & _ & _ & I7). now apply I7.
Qed.

End Engine.

(** A storage that holds nothing yet. *)
Lemma save_then_load_witness :
  loadExploredCells parse_ref
    (saveExploredCells stringify_ref stored_keys empty_world)
  = map JStr stored_keys.
Proof.
  apply (save_then_load stringify_ref parse_ref stored_keys empty_world).
  - reflexivity.
  - vm_compute. repeat constructor.
  - discriminate.
  - reflexivity.
  - unfold stored_keys. repeat constructor; cbn [In]; intuition discriminate.
Defined.

Lemma revealAt_then_load_witness :
  loadExploredCells parse_ref
    (world_of (revealAt cos_ref stringify_ref (Fin lat0) (Fin lng0) []
                 empty_world))
  = map JStr
      (cells_of (revealAt cos_ref stringify_ref (Fin lat0) (Fin lng0) []
                   empty_world)).
Proof.
  apply (revealAt_then_load cos_ref stringify_ref parse_ref
           (Fin lat0) (Fin lng0) [] empty_world).
  - constructor.
  - vm_compute. reflexivity.
  - reflexivity.
  - vm_compute. repeat constructor.
  - vm_compute. discriminate.
  - vm_compute. reflexivity.
Defined.

End RevealMore.

(** ** A position that is not a number *)

Module NaNPosition.

Import JsStringFacts GridFacts RevealEngine.
Local Open Scope string_scope.

(** Revealing one key any number of times adds it once. *)
Lemma reveal_loop_repeat (key : string) n : forall cells flag,
  fst (fold_left reveal_step (repeat key (S n)) (cells, flag)) =
  Set_add cells key.
Proof.
  intros cells flag. cbn [repeat fold_left].
  pose proof (reveal_loop (repeat key n)) as L. cbv zeta in L.
  unfold Set_add. destruct (Set_has cells key) eqn:Hk.
  - assert (reveal_step (cells, flag) key = (cells, flag)) as ->
      by (unfold reveal_step; rewrite Hk; reflexivity).
    destruct (L cells flag) as (_ & _ & _ & _ & I5 & _).
    apply I5. intros k H. apply repeat_spec in H. subst.
    now apply Set_has_In.
  - assert (reveal_step (cells, flag) key = ((cells ++ [key])%list, true))
      as -> by (unfold reveal_step, Set_add; rewrite Hk; reflexivity).
    destruct (L (cells ++ [key])%list true) as (_ & _ & _ & _ & I5 & _).
    apply I5. intros k H. apply repeat_spec in H. subst.
    apply in_or_app. right. now left.
Qed.

Section Engine.

Variable cos_deg : Q -> Q.
Variable JSON_stringify : list string -> string.

Local Abbreviation revealAt := (revealAt cos_deg JSON_stringify).
Local Abbreviation getRevealCells := (getRevealCells cos_deg).
Local Abbreviation getCellKey := (getCellKey cos_deg).

Lemma getCellKey_NaN lng : getCellKey NaN lng = "NaN_NaN".
Proof. destruct lng; reflexivity. Qed.

Lemma getRevealCells_NaN lng : getRevealCells NaN lng = repeat "NaN_NaN" 21.
Proof.
  rewrite (getRevealCells_brush cos_deg). unfold brush.
  cbn [map cellAt nadd]. rewrite !getCellKey_NaN. reflexivity.
Qed.

(** X2.  A NaN latitude gives the key [NaN_NaN] whatever the longitude, and
    [revealAt] at such a position adds that one key to the set (if it is
    not there yet); [getCoverage] never counts that key, whatever the
    center and the radius. *)
Theorem revealAt_NaN lng cells w :
  getCellKey NaN lng = "NaN_NaN" /\
  cells_of (revealAt NaN lng cells w) = Set_add cells "NaN_NaN" /\
  (forall centerLat centerLng radiusMeters,
     coverage_inArea cos_deg centerLat centerLng radiusMeters "NaN_NaN"
     = false).
Proof.
  split; [apply getCellKey_NaN |]. split.
  - pose proof (revealAt_unfold cos_deg JSON_stringify NaN lng cells w) as E.
    cbv zeta in E. rewrite E. unfold cells_of. cbn [fst snd].
    rewrite getRevealCells_NaN. apply (reveal_loop_repeat "NaN_NaN" 20).
  - intros centerLat centerLng radiusMeters. unfold coverage_inArea.
    cbv zeta.
    change (parseFloat_opt (nth_error (split "_" "NaN_NaN") 0)) with NaN.
    unfold nge.
    destruct (centerLat - radiusMeters / METERS_PER_DEG_LAT)%num; reflexivity.
Qed.

End Engine.

End NaNPosition.

(** ** More on the coverage estimator: its value, and how it moves *)

Module CoverageMore.

Import JsStringFacts QuantFacts GridFacts Coverage.
Local Open Scope string_scope.

(** [Math.floor] of a quotient of integers is their Euclidean quotient. *)
Lemma Qfloor_div a b :
  (0 < b)%Z -> Qfloor (inject_Z a / inject_Z b) = (a / b)%Z.
Proof.
  intros Hb.
  assert (0 < inject_Z b)%Q as Pb
    by (change 0%Q with (inject_Z 0); rewrite <- Zlt_Qlt; exact Hb).
  apply Qfloor_unique.
  - apply Qle_shift_div_l; [exact Pb |].
    rewrite <- inject_Z_mult, <- Zle_Qle.
    pose proof (Z.mul_div_le a b Hb). lia.
  - apply Qlt_shift_div_r; [exact Pb |].
    rewrite <- inject_Z_mult, <- Zlt_Qlt.
    pose proof (Z.mul_succ_div_gt a b Hb). lia.
Qed.

(** The rounded percentage, as one quotient. *)
Lemma percent_round (N T : Q) :
  ~ (T == 0)%Q ->
  (N / T * 100 + (1 # 2) == (200 * N + T) / (2 * T))%Q.
Proof. intros H. field. exact H. Qed.

Lemma round_percent_Z n t :
  (0 < t * t)%Z ->
  Qfloor (inject_Z n / (inject_Z t * inject_Z t) * 100 + (1 # 2)) =
  ((200 * n + t * t) / (2 * (t * t)))%Z.
Proof.
  intros Ht.
  assert (~ (inject_Z t * inject_Z t == 0)%Q) as Hnz.
  { rewrite <- inject_Z_mult. change 0%Q with (inject_Z 0).
    rewrite inject_Z_injective. lia. }
  rewrite (Qfloor_comp _ _ (percent_round (inject_Z n)
                              (inject_Z t * inject_Z t) Hnz)).
  rewrite <- Qfloor_div by lia.
  apply Qfloor_comp.
  rewrite !inject_Z_plus, !inject_Z_mult. reflexivity.
Qed.

Lemma exploredInArea_app (inArea : string -> bool) cells more n :
  (fold_left (fun acc key => if inArea key then acc + 1 else acc) cells n <=
   fold_left (fun acc key => if inArea key then acc + 1 else acc)
     (cells ++ more) n)%Z.
Proof.
  rewrite fold_left_app.
  pose proof (exploredInArea_bounds inArea more
                (fold_left
                   (fun acc key => if inArea key then (acc + 1)%Z else acc)
                   cells n)).
  lia.
Qed.

Lemma coverage_percent_mono t n n' :
  (0 <= t)%Z -> (n <= n')%Z ->
  (coverage_percent t n <= coverage_percent t n')%Z.
Proof.
  intros Ht Hn. unfold coverage_percent.
  destruct (Z.eqb_spec t 0); [lia |].
  apply Z.min_le_compat_l. apply Z.div_le_mono; nia.
Qed.

Section Estimator.

Variable cos_deg : Q -> Q.
Variable JSON_stringify : list string -> string.

Local Abbreviation getCoverage := (getCoverage cos_deg).
Local Abbreviation exploredInArea := (coverage_exploredInArea cos_deg).

(** The value of [getCoverage] at a center of positive cosine. *)
Lemma getCoverage_value cells lat lng (radius : option Q) :
  let r := match radius with Some r => r | None => 1000%Q end in
  (0 < cos_deg (Qred lat))%Q -> (0 <= r)%Q ->
  getCoverage cells (Fin lat) (Fin lng) (option_map Fin radius) =
  Fin (inject_Z
         (coverage_percent (steps r)
            (exploredInArea cells (Fin lat) (Fin lng) (Fin r)))).
Proof.
  cbv zeta. intros Hc Hr.
  set (r := match radius with Some r => r | None => 1000%Q end) in *.
  set (n := exploredInArea cells (Fin lat) (Fin lng) (Fin r)).
  assert (getCoverage cells (Fin lat) (Fin lng) (option_map Fin radius)
          = (let totalCells := coverage_totalCells cos_deg (Fin lat) (Fin r) in
             if strict_eq totalCells (Fin 0) then Fin 0
             else Math_min (Fin 100)
                    (Math_round ((of_Z n / totalCells) * Fin 100)%num))) as ->.
  { unfold FogGrid.getCoverage, n, r. destruct radius; reflexivity. }
  cbv zeta. rewrite (coverage_totalCells_fin cos_deg lat r Hc).
  set (t := steps r).
  assert (0 <= t)%Z as Ht.
  { unfold t, steps. apply Qceiling_nonneg.
    apply Qle_shift_div_l; [reflexivity | lra]. }
  unfold coverage_percent. cbn [strict_eq].
  destruct (Z.eqb_spec t 0) as [E | E].
  - rewrite E. reflexivity.
  - assert (0 < t * t)%Z as Htt by nia.
    assert (Qeq_bool (inject_Z t * inject_Z t) 0 = false) as E0.
    { apply Qeq_bool_false. rewrite <- inject_Z_mult.
      change 0%Q with (inject_Z 0). rewrite inject_Z_injective. lia. }
    rewrite E0. unfold of_Z, ndiv. rewrite E0.
    cbn [nmul Math_round Math_min nle]. rewrite (round_percent_Z n t Htt).
    set (p := ((200 * n + t * t) / (2 * (t * t)))%Z).
    destruct (Qle_bool 100 (inject_Z p)) eqn:E100.
    + apply Qle_bool_iff in E100. change 100%Q with (inject_Z 100) in E100.
      rewrite <- Zle_Qle in E100. rewrite Z.min_l by exact E100. reflexivity.
    + assert (p < 100)%Z as Hlt.
      { apply Z.lt_nge. intros H. rewrite Zle_Qle in H.
        change (inject_Z 100) with 100%Q in H. apply Qle_bool_iff in H.
        congruence. }
      rewrite Z.min_r by lia. reflexivity.
Qed.



End Estimator.



End CoverageMore.

(** ** More on the repaint pass: its bracket, the erase of a cell, NaN cells *)

Module RendererMore.

Import Renderer.
Local Open Scope string_scope.

Section Pass.

Variable cos_deg : Q -> Q.

Local Abbreviation getCellBounds := (getCellBounds cos_deg).
Local Abbreviation _update := (_update cos_deg).

Lemma erase_ops_only map drawn :
  forallb is_erase_op
    (flat_map (fun key => eraseCell map (getCellBounds key)) drawn) = true.
Proof.
  induction drawn as [| key drawn IH]; [reflexivity |].
  cbn [flat_map]. rewrite forallb_app, IH. reflexivity.
Qed.


(** X15.  The erase of a cell whose corners project to finite points, the
    south-east one to the right of and below the north-west one: a radial
    gradient centred on the middle of the projected rectangle, of radius 0.8
    times its longer side, and a filled rectangle that holds both the disc
    of that radius and the projected rectangle; the corners of the projected
    rectangle lie within the radius. *)
Theorem eraseCell_geometry map cell x1 y1 x2 y2 :
  latLngToContainerPoint map (north cell) (west cell)
    = {| px := Fin x1; py := Fin y1 |} ->
  latLngToContainerPoint map (south cell) (east cell)
    = {| px := Fin x2; py := Fin y2 |} ->
  (x1 <= x2)%Q -> (y1 <= y2)%Q ->
  exists cx cy r X Y W H : Q,
    eraseCell map cell =
      [ SetFillRadialGradient (Fin cx) (Fin cy) (Fin 0) (Fin cx) (Fin cy)
          (Fin r) erase_stops;
        FillRect (Fin X) (Fin Y) (Fin W) (Fin H) ] /\
    (cx == (x1 + x2) / 2 /\ cy == (y1 + y2) / 2 /\
     0 <= r /\ (8 # 10) * (x2 - x1) <= r /\ (8 # 10) * (y2 - y1) <= r /\
     (r == (8 # 10) * (x2 - x1) \/ r == (8 # 10) * (y2 - y1)) /\
     X <= cx - r /\ cx + r <= X + W /\ Y <= cy - r /\ cy + r <= Y + H /\
     X <= x1 /\ x2 <= X + W /\ Y <= y1 /\ y2 <= Y + H /\
     (x2 - cx) * (x2 - cx) + (y2 - cy) * (y2 - cy) <= r * r)%Q.
Proof.
  intros Hnw Hse Hx Hy. unfold eraseCell. rewrite Hnw, Hse.
  cbn [px py nsub nneg nadd ndiv nmul Math_max nle].
  change (Qeq_bool 2 0) with false. cbv iota.
  set (w := (x2 + - x1)%Q). set (h := (y2 + - y1)%Q).
  assert (exists m : Q,
            (if Qle_bool w h then Fin h else Fin w) = Fin m /\
            (w <= m /\ h <= m /\ (m == w \/ m == h))%Q) as (m & -> & Hm).
  { destruct (Qle_bool w h) eqn:E.
    - apply Qle_bool_iff in E. exists h. split; [reflexivity |].
      split; [exact E |]. split; [lra | right; reflexivity].
    - exists w. split; [reflexivity |].
      assert (h < w)%Q.
      { apply Qnot_le_lt. intros H. apply Qle_bool_iff in H. congruence. }
      split; [lra |]. split; [lra | left; reflexivity]. }
  cbn [nmul nadd].
  exists (x1 + w / 2)%Q, (y1 + h / 2)%Q, (m * (8 # 10))%Q,
         (x1 + - (m * (8 # 10)))%Q, (y1 + - (m * (8 # 10)))%Q,
         (m * (8 # 10) * 2 + w)%Q, (m * (8 # 10) * 2 + h)%Q.
  split; [reflexivity |].
  assert (w / 2 == w * (1 # 2))%Q as Ew by field.
  assert (h / 2 == h * (1 # 2))%Q as Eh by field.
  assert ((x1 + x2) / 2 == (x1 + x2) * (1 # 2))%Q as Ex by field.
  assert ((y1 + y2) / 2 == (y1 + y2) * (1 # 2))%Q as Ey by field.
  rewrite Ew, Eh, Ex, Ey. clear Ew Eh Ex Ey.
  destruct Hm as (M1 & M2 & M3). unfold w, h in *.
  assert (0 <= (m - (x2 + - x1)) * (m + (x2 + - x1)))%Q
    by (apply Qmult_le_0_compat; lra).
  assert (0 <= (m - (y2 + - y1)) * (m + (y2 + - y1)))%Q
    by (apply Qmult_le_0_compat; lra).
  assert (0 <= m * m)%Q by (apply Qmult_le_0_compat; lra).
  split; [lra |]. split; [lra |]. split; [lra |]. split; [lra |].
  split; [lra |].
  split; [destruct M3 as [M3 | M3]; [left | right]; lra |].
  repeat (split; [lra |]). lra.
Qed.


End Pass.

(** The sample view and the rectangle of the sample cell. *)
Lemma eraseCell_geometry_witness :
  exists cx cy r X Y W H : Q,
    eraseCell sample_view
      (rectangle (42697628 # 1000000) (42698078 # 1000000)
                 (23321882 # 1000000) (23322493 # 1000000)) =
      [ SetFillRadialGradient (Fin cx) (Fin cy) (Fin 0) (Fin cx) (Fin cy)
          (Fin r) erase_stops;
        FillRect (Fin X) (Fin Y) (Fin W) (Fin H) ] /\
    (cx == (((23321882 # 1000000) - (23318 # 1000)) * 100000 +
            ((23322493 # 1000000) - (23318 # 1000)) * 100000) / 2 /\
     cy == (((42700 # 1000) - (42698078 # 1000000)) * 100000 +
            ((42700 # 1000) - (42697628 # 1000000)) * 100000) / 2 /\
     0 <= r /\
     (8 # 10) * (((23322493 # 1000000) - (23318 # 1000)) * 100000 -
                 ((23321882 # 1000000) - (23318 # 1000)) * 100000) <= r /\
     (8 # 10) * (((42700 # 1000) - (42697628 # 1000000)) * 100000 -
                 ((42700 # 1000) - (42698078 # 1000000)) * 100000) <= r /\
     (r == (8 # 10) * (((23322493 # 1000000) - (23318 # 1000)) * 100000 -
                       ((23321882 # 1000000) - (23318 # 1000)) * 100000) \/
      r == (8 # 10) * (((42700 # 1000) - (42697628 # 1000000)) * 100000 -
                       ((42700 # 1000) - (42698078 # 1000000)) * 100000)) /\
     X <= cx - r /\ cx + r <= X + W /\ Y <= cy - r /\ cy + r <= Y + H /\
     X <= ((23321882 # 1000000) - (23318 # 1000)) * 100000 /\
     ((23322493 # 1000000) - (23318 # 1000)) * 100000 <= X + W /\
     Y <= ((42700 # 1000) - (42698078 # 1000000)) * 100000 /\
     ((42700 # 1000) - (42697628 # 1000000)) * 100000 <= Y + H /\
     (((23322493 # 1000000) - (23318 # 1000)) * 100000 - cx) *
     (((23322493 # 1000000) - (23318 # 1000)) * 100000 - cx) +
     (((42700 # 1000) - (42697628 # 1000000)) * 100000 - cy) *
     (((42700 # 1000) - (42697628 # 1000000)) * 100000 - cy) <= r * r)%Q.
Proof.
  apply (eraseCell_geometry sample_view
           (rectangle (42697628 # 1000000) (42698078 # 1000000)
                      (23321882 # 1000000) (23322493 # 1000000))).
  - reflexivity.
  - reflexivity.
  - vm_compute. discriminate.
  - vm_compute. discriminate.
Defined.

End RendererMore.

(** ** The callers of the engine in the application component *)

Module AppFacts.

Import JsStringFacts GridFacts RevealEngine.
Local Open Scope string_scope.

Section Component.

Variable cos_deg : Q -> Q.
Variable JSON_stringify : list string -> string.
Variable JSON_stringify_value : json -> string.
Variable JSON_parse : string -> Exc json.
Variable toLocaleDateString : Z -> string.

Local Abbreviation revealAt := (revealAt cos_deg JSON_stringify).
Local Abbreviation getCellKey := (getCellKey cos_deg).
Local Abbreviation doInitialReveal := (doInitialReveal cos_deg JSON_stringify).
Local Abbreviation revealCells := (revealCells cos_deg JSON_stringify).
Local Abbreviation initial_step := (initial_step cos_deg JSON_stringify).
Local Abbreviation initialMapCenter := (initialMapCenter JSON_parse).
Local Abbreviation saveLastCenter := (saveLastCenter JSON_stringify_value).
Local Abbreviation formatTime := (formatTime toLocaleDateString).

(** One [revealAt] of the loop of [doInitialReveal]. *)
Lemma initial_step_spec lat lng copy changed w offset :
  let r := initial_step lat lng (copy, changed, w) offset in
  incl copy (fst (fst r)) /\
  (NoDup copy -> NoDup (fst (fst r))) /\
  (snd (fst r) = false -> fst (fst r) = copy /\ changed = false) /\
  (changed = true -> snd (fst r) = true) /\
  (List.length (fst (fst r)) <= List.length copy + 21)%nat /\
  (forall k,
     In k (getRevealCells cos_deg (lat + Fin (fst offset))%num
             (lng + Fin (snd offset))%num) ->
     In k (fst (fst r))).
Proof.
  destruct offset as [dlat dlng]. cbv zeta. unfold App.initial_step.
  cbn [fst snd].
  pose proof (revealAt_unfold cos_deg JSON_stringify
                (lat + Fin dlat)%num (lng + Fin dlng)%num copy w) as E.
  cbv zeta in E. rewrite E. clear E. cbn [fst snd].
  pose proof (reveal_loop
                (getRevealCells cos_deg (lat + Fin dlat)%num
                   (lng + Fin dlng)%num) copy false) as L.
  cbv zeta in L. destruct L as (I1 & I2 & I3 & I4 & I5 & I6 & I7).
  destruct (RevealMore.reveal_loop_added
              (getRevealCells cos_deg (lat + Fin dlat)%num
                 (lng + Fin dlng)%num) copy false) as (added & Ea & _ & _ & La).
  split; [exact I1 |]. split; [exact I7 |]. split.
  - destruct (snd (fold_left reveal_step _ (copy, false))) eqn:S.
    + discriminate.
    + intros ->. split; [apply I6; reflexivity | reflexivity].
  - split.
    + intros ->. destruct (snd (fold_left reveal_step _ (copy, false)));
        reflexivity.
    + split; [| exact I3].
      rewrite Ea, List.length_app.
      rewrite (getRevealCells_brush cos_deg), length_map in La.
      change (List.length brush) with 21%nat in La. lia.
Qed.

(** Once set, the flag of the loop stays set. *)
Lemma initial_loop_changed lat lng offsets : forall copy w,
  snd (fst (fold_left (initial_step lat lng) offsets (copy, true, w))) = true.
Proof.
  induction offsets as [| o os IHo]; intros copy w; cbn [fold_left];
    [reflexivity |].
  pose proof (initial_step_spec lat lng copy true w o) as S.
  cbv zeta in S.
  destruct (initial_step lat lng (copy, true, w) o) as [[c2 ch2] w2].
  cbn [fst snd] in S. destruct S as (_ & _ & _ & S4 & _).
  rewrite (S4 eq_refl). apply IHo.
Qed.

(** The loop of [doInitialReveal]. *)
Lemma initial_loop lat lng offsets : forall copy changed w,
  let r := fold_left (initial_step lat lng) offsets (copy, changed, w) in
  incl copy (fst (fst r)) /\
  (NoDup copy -> NoDup (fst (fst r))) /\
  (snd (fst r) = false -> fst (fst r) = copy) /\
  (List.length (fst (fst r)) <=
   List.length copy + 21 * List.length offsets)%nat /\
  (forall off k,
     In off offsets ->
     In k (getRevealCells cos_deg (lat + Fin (fst off))%num
             (lng + Fin (snd off))%num) ->
     In k (fst (fst r))).
Proof.
  clear JSON_stringify_value JSON_parse toLocaleDateString.
  induction offsets as [| offset offsets IH]; intros copy changed w;
    cbn [fold_left].
  - cbv zeta. cbn [fst snd List.length]. split; [apply incl_refl |].
    split; [tauto |]. split; [reflexivity |]. split; [lia |].
    intros off k [].
  - pose proof (initial_step_spec lat lng copy changed w offset) as S.
    cbv zeta in S.
    destruct (initial_step lat lng (copy, changed, w) offset)
      as [[copy1 changed1] w1].
    cbn [fst snd] in S. destruct S as (S1 & S2 & S3 & S4 & S5 & S6).
    specialize (IH copy1 changed1 w1). cbv zeta in IH |- *.
    destruct IH as (I1 & I2 & I3 & I4 & I5).
    split; [intros k H; apply I1, S1, H |].
    split; [tauto |].
    split.
    + intros H.
      destruct changed1 eqn:C.
      * exfalso.
        pose proof (initial_loop_changed lat lng offsets copy1 w1).
        congruence.
      * rewrite (I3 H). now apply S3.
    + split; [cbn [List.length]; lia |].
      intros off k [<- | Hin] Hk; [apply I1, S6, Hk | eapply I5; eauto].
Qed.

(** X11.  The initial reveal happens once.  On a component that has not
    done it, [doInitialReveal] at a finite position sets the flag, keeps
    every explored cell, adds at most 9 x 21 cells, leaves the set free of
    duplicates, and leaves the cell of the position explored, so the map is
    not fully dark; any further call, at any position, changes neither the
    state nor the storage. *)
Theorem doInitialReveal_once (lat lng : Q) st w :
  hasInitialReveal st = false ->
  let r := doInitialReveal (Fin lat) (Fin lng) st w in
  hasInitialReveal (fst r) = true /\
  In (getCellKey (Fin lat) (Fin lng)) (explored (fst r)) /\
  incl (explored st) (explored (fst r)) /\
  (NoDup (explored st) -> NoDup (explored (fst r))) /\
  (List.length (explored (fst r)) <= List.length (explored st) + 189)%nat /\
  (forall lat' lng', doInitialReveal lat' lng' (fst r) (snd r) = r).
Proof.
  clear JSON_stringify_value JSON_parse toLocaleDateString.
  intros Hf. cbv zeta. unfold App.doInitialReveal. rewrite Hf.
  pose proof (initial_loop (Fin lat) (Fin lng) initial_offsets
                (explored st) false w) as L.
  cbv zeta in L.
  destruct (fold_left (initial_step (Fin lat) (Fin lng)) initial_offsets
              (explored st, false, w)) as [[copy changed] w'] eqn:E.
  cbn [fst snd] in L |- *. destruct L as (I1 & I2 & I3 & I4 & I5).
  assert ((if changed then copy else explored st) = copy) as ->.
  { destruct changed; [reflexivity |]. symmetry. now apply I3. }
  split; [reflexivity |]. split.
  - cbn [explored]. apply (I5 (0, 0)%Q); [now left |]. cbn [fst snd nadd].
    rewrite (getRevealCells_brush cos_deg).
    rewrite <- (cellAt_origin cos_deg lat lng).
    assert (cellAt cos_deg (Fin lat) (Fin lng) (0, 0)%Z =
            cellAt cos_deg (Fin (lat + 0)) (Fin (lng + 0)) (0, 0)%Z) as ->.
    { rewrite !(cellAt_origin cos_deg).
      apply getCellKey_proper; ring. }
    apply in_map. apply brush_spec. unfold REVEAL_RADIUS. lia.
  - split; [exact I1 |]. split; [exact I2 |].
    split; [change (List.length initial_offsets) with 9%nat in I4;
            cbn [explored]; lia |].
    intros lat' lng'. reflexivity.
Qed.

(** X12.  [formatTime] by the age [now - ts] in milliseconds: [just now]
    below a minute (and for a time in the future); whole minutes from 1 to
    59 below an hour; whole hours from 1 to 23 below a day; the date from a
    day on. *)
Theorem formatTime_ranges (now ts : Z) :
  let age := (now - ts)%Z in
  ((age < 60000)%Z -> formatTime now ts = "just now") /\
  ((60000 <= age < 3600000)%Z ->
   exists m : Z,
     (1 <= m <= 59 /\ 60000 * m <= age < 60000 * (m + 1))%Z /\
     formatTime now ts = Z_to_string m ++ "m ago") /\
  ((3600000 <= age < 86400000)%Z ->
   exists h : Z,
     (1 <= h <= 23 /\ 3600000 * h <= age < 3600000 * (h + 1))%Z /\
     formatTime now ts = Z_to_string h ++ "h ago") /\
  ((86400000 <= age)%Z -> formatTime now ts = toLocaleDateString ts).
Proof.
  cbv zeta. unfold App.formatTime. cbv zeta.
  set (age := (now - ts)%Z).
  destruct (Z.ltb_spec age 60000) as [A | A];
    [repeat split; intros; try reflexivity; lia |].
  destruct (Z.ltb_spec age 3600000) as [B | B].
  - split; [lia |]. split.
    + intros _. exists (age / 60000)%Z. split; [| reflexivity].
      pose proof (Z.mul_div_le age 60000 ltac:(lia)).
      pose proof (Z.mul_succ_div_gt age 60000 ltac:(lia)).
      assert (1 <= age / 60000 <= 59)%Z; [| lia].
      split; [apply Z.div_le_lower_bound; lia |].
      assert (age / 60000 < 60)%Z; [| lia].
      apply Z.div_lt_upper_bound; lia.
    + split; intros; lia.
  - destruct (Z.ltb_spec age 86400000) as [C | C].
    + split; [lia |]. split; [lia |]. split; [| lia].
      intros _. exists (age / 3600000)%Z. split; [| reflexivity].
      pose proof (Z.mul_div_le age 3600000 ltac:(lia)).
      pose proof (Z.mul_succ_div_gt age 3600000 ltac:(lia)).
      assert (1 <= age / 3600000 <= 23)%Z; [| lia].
      split; [apply Z.div_le_lower_bound; lia |].
      assert (age / 3600000 < 24)%Z; [| lia].
      apply Z.div_lt_upper_bound; lia.
    + split; [lia |]. split; [lia |]. split; [lia |]. reflexivity.
Qed.

(** X13.  The map center of a session.  Reading it throws when the storage
    cannot be read ([getItem] is outside the [try]); it is the default
    center when the key is missing, empty or not JSON, and the parsed value
    otherwise.  The position callback's write is unguarded as well: it
    throws when the storage refuses it and then stores nothing; when the
    storage takes it and [JSON.parse] reads back what [JSON.stringify]
    wrote, the next session starts at the position written. *)
Theorem initialMapCenter_cases (latitude longitude : Q) (w : World) :
  (ls_available w = false -> initialMapCenter w = Throw) /\
  (ls_available w = true ->
   match lookup LAST_CENTER_KEY (ls_items w) with
   | None => initialMapCenter w = Ret DEFAULT_CENTER
   | Some text =>
       (text = "" -> initialMapCenter w = Ret DEFAULT_CENTER) /\
       (JSON_parse text = Throw -> initialMapCenter w = Ret DEFAULT_CENTER) /\
       (forall v,
          text <> "" -> JSON_parse text = Ret v -> initialMapCenter w = Ret v)
   end) /\
  (let position := JArr [JNum latitude; JNum longitude] in
   let text := JSON_stringify_value position in
   (ls_available w = false \/ (ls_quota w < String.length text)%nat ->
    fst (saveLastCenter latitude longitude w) = Throw /\
    ls_items (snd (saveLastCenter latitude longitude w)) = ls_items w) /\
   (ls_available w = true -> (String.length text <= ls_quota w)%nat ->
    text <> "" -> JSON_parse text = Ret position ->
    fst (saveLastCenter latitude longitude w) = Ret tt /\
    initialMapCenter (snd (saveLastCenter latitude longitude w))
      = Ret position)).
Proof.
  unfold App.initialMapCenter, App.saveLastCenter, getItem, setItem.
  split; [intros ->; reflexivity |]. split.
  - intros ->. cbn [bind].
    destruct (lookup LAST_CENTER_KEY (ls_items w)) as [text |];
      [| reflexivity].
    destruct text as [| c text].
    + repeat split; try reflexivity. intros v H. congruence.
    + split; [discriminate |]. split; [intros ->; reflexivity |].
      intros v _ ->. reflexivity.
  - cbv zeta. split.
    + intros [A | Q].
      * rewrite A. split; reflexivity.
      * destruct (ls_available w); cbn [andb]; [| split; reflexivity].
        destruct (Nat.leb_spec
                    (String.length
                       (JSON_stringify_value
                          (JArr [JNum latitude; JNum longitude])))
                    (ls_quota w)); [lia | split; reflexivity].
    + intros A Q N P. rewrite A. cbn [andb].
      apply Nat.leb_le in Q. rewrite Q. cbn [fst snd ls_available ls_items].
      split; [reflexivity |]. cbn [bind].
      rewrite RevealMore.lookup_store_same.
      destruct (JSON_stringify_value (JArr [JNum latitude; JNum longitude]))
        as [| c text]; [congruence |].
      rewrite P. reflexivity.
Qed.

(** What [revealCells] leaves in the [explored] state. *)
Lemma revealCells_spec lat lng st w :
  let r := revealCells lat lng st w in
  hasInitialReveal (fst r) = hasInitialReveal st /\
  incl (explored st) (explored (fst r)) /\
  (List.length (explored (fst r)) <= List.length (explored st) + 21)%nat /\
  (forall k, In k (getRevealCells cos_deg lat lng) ->
             In k (explored (fst r))).
Proof.
  cbv zeta. unfold App.revealCells.
  pose proof (revealAt_unfold cos_deg JSON_stringify lat lng
                (explored st) w) as E.
  cbv zeta in E. rewrite E. clear E. cbn [fst snd hasInitialReveal explored].
  pose proof (reveal_loop (getRevealCells cos_deg lat lng)
                (explored st) false) as L.
  cbv zeta in L. destruct L as (I1 & _ & I3 & _ & _ & I6 & _).
  destruct (RevealMore.reveal_loop_added
              (getRevealCells cos_deg lat lng) (explored st) false)
    as (added & Ea & _ & _ & La).
  rewrite (getRevealCells_brush cos_deg), length_map in La.
  change (List.length brush) with 21%nat in La.
  destruct (snd (fold_left reveal_step (getRevealCells cos_deg lat lng)
                   (explored st, false))) eqn:S.
  - split; [reflexivity |]. split; [exact I1 |].
    split; [rewrite Ea, List.length_app; lia | exact I3].
  - rewrite (I6 eq_refl) in I3.
    split; [reflexivity |]. split; [apply incl_refl |].
    split; [lia | exact I3].
Qed.

(** X22.  A position from the device.  When the storage refuses the write
    of the position, the callback throws before it reveals anything: the
    explored set and the flag of the initial reveal stay as they were.
    When the storage takes it, the flag is set, so that [doInitialReveal]
    does nothing from then on, the cell of the position is explored, the
    cells explored before are kept and at most 21 are added. *)
Theorem onPosition_cases (latitude longitude : Q) st w :
  let text :=
    JSON_stringify_value (JArr [JNum latitude; JNum longitude]) in
  let r :=
    onPosition cos_deg JSON_stringify JSON_stringify_value
      latitude longitude st w in
  (ls_available w = false \/ (ls_quota w < String.length text)%nat ->
   fst (fst r) = Throw /\ snd (fst r) = st /\
   ls_items (snd r) = ls_items w) /\
  (ls_available w = true -> (String.length text <= ls_quota w)%nat ->
   fst (fst r) = Ret tt /\
   hasInitialReveal (snd (fst r)) = true /\
   In (getCellKey (Fin latitude) (Fin longitude)) (explored (snd (fst r))) /\
   incl (explored st) (explored (snd (fst r))) /\
   (List.length (explored (snd (fst r))) <=
    List.length (explored st) + 21)%nat /\
   (forall lat' lng',
      doInitialReveal lat' lng' (snd (fst r)) (snd r)
      = (snd (fst r), snd r))).
Proof.
  clear JSON_parse toLocaleDateString.
  cbv zeta. unfold App.onPosition, App.saveLastCenter, setItem. split.
  - intros H.
    assert ((ls_available w &&
             (String.length
                (JSON_stringify_value (JArr [JNum latitude; JNum longitude]))
              <=? ls_quota w)%nat)%bool = false) as ->.
    { destruct H as [-> | Q]; [reflexivity |].
      apply andb_false_iff. right. apply Nat.leb_gt. exact Q. }
    cbn [fst snd ls_items]. repeat split.
  - intros A Q. rewrite A. apply Nat.leb_le in Q. rewrite Q. cbn [andb].
    match goal with
    | |- context [revealCells ?a ?b ?s ?v] =>
        pose proof (revealCells_spec a b s v) as R;
        destruct (revealCells a b s v) as [st' w']
    end.
    cbv zeta in R. cbn [fst snd hasInitialReveal explored] in R |- *.
    destruct R as (R1 & R2 & R3 & R4).
    split; [reflexivity |]. split; [exact R1 |]. split.
    + apply R4. rewrite (getRevealCells_brush cos_deg).
      rewrite <- (cellAt_origin cos_deg latitude longitude).
      apply in_map. apply brush_spec. unfold REVEAL_RADIUS. lia.
    + split; [exact R2 |]. split; [exact R3 |].
      intros lat' lng'. unfold App.doInitialReveal. rewrite R1. reflexivity.
Qed.

End Component.

Lemma doInitialReveal_once_witness :
  let r := doInitialReveal cos_ref stringify_ref (Fin lat0) (Fin lng0)
             fresh_state empty_world in
  hasInitialReveal (fst r) = true /\
  In (getCellKey cos_ref (Fin lat0) (Fin lng0)) (explored (fst r)) /\
  incl (explored fresh_state) (explored (fst r)) /\
  (NoDup (explored fresh_state) -> NoDup (explored (fst r))) /\
  (List.length (explored (fst r)) <=
   List.length (explored fresh_state) + 189)%nat /\
  (forall lat' lng',
     doInitialReveal cos_ref stringify_ref lat' lng' (fst r) (snd r) = r).
Proof.
  apply (doInitialReveal_once cos_ref stringify_ref lat0 lng0
           fresh_state empty_world).
  reflexivity.
Defined.

(** A position written by one session and read by the next. *)
Lemma initialMapCenter_witness :
  fst (saveLastCenter stringify_center_ref lat0 lng0 empty_world) = Ret tt /\
  initialMapCenter parse_center_ref
    (snd (saveLastCenter stringify_center_ref lat0 lng0 empty_world))
  = Ret (JArr [JNum lat0; JNum lng0]).
Proof.
  pose proof (initialMapCenter_cases stringify_center_ref parse_center_ref
                lat0 lng0 empty_world) as (_ & _ & H).
  cbv zeta in H. destruct H as [_ H]. apply H.
  - reflexivity.
  - vm_compute. repeat constructor.
  - discriminate.
  - vm_compute. reflexivity.
Defined.

End AppFacts.

(** ** The trace store ([traces.js]) *)

Module TraceFacts.

Local Open Scope string_scope.

Section Store.

Variable JSON_stringify_value : json -> string.
Variable JSON_parse : string -> Exc json.

Local Abbreviation loadTraces := (loadTraces JSON_parse).
Local Abbreviation saveTraces := (saveTraces JSON_stringify_value).
Local Abbreviation addTrace := (addTrace JSON_stringify_value JSON_parse).
Local Abbreviation deleteTrace :=
  (deleteTrace JSON_stringify_value JSON_parse).

Lemma has_id_cases id t :
  has_id id t = Ret true \/ other_id id t \/ t = JNull.
Proof.
  unfold other_id. destruct t; cbn [has_id]; auto.
  destruct (get_field "id" fields) as [[| | | s | |] |]; auto.
  destruct (String.eqb s id); auto.
Qed.

Lemma findIndex_none id items :
  Forall (other_id id) items -> findIndex id items = Ret None.
Proof.
  induction 1 as [| t rest Ht _ IH]; [reflexivity |].
  cbn [findIndex]. rewrite Ht. cbn [bind]. rewrite IH. reflexivity.
Qed.

Lemma findIndex_first id pre t post :
  Forall (other_id id) pre -> has_id id t = Ret true ->
  findIndex id (pre ++ t :: post)%list = Ret (Some (List.length pre)).
Proof.
  intros Hpre Ht. induction Hpre as [| x rest Hx _ IH].
  - cbn [app findIndex List.length]. rewrite Ht. reflexivity.
  - cbn [app findIndex List.length]. rewrite Hx. cbn [bind]. rewrite IH.
    reflexivity.
Qed.

Lemma findIndex_throw id pre post :
  Forall (other_id id) pre ->
  findIndex id (pre ++ JNull :: post)%list = Throw.
Proof.
  induction 1 as [| x rest Hx _ IH]; [reflexivity |].
  cbn [app findIndex]. rewrite Hx. cbn [bind]. rewrite IH. reflexivity.
Qed.

(** Every list is of one of the three shapes above. *)
Lemma findIndex_shapes id items :
  Forall (other_id id) items \/
  (exists pre t post,
     items = (pre ++ t :: post)%list /\ Forall (other_id id) pre /\
     has_id id t = Ret true) \/
  (exists pre post,
     items = (pre ++ JNull :: post)%list /\ Forall (other_id id) pre).
Proof.
  induction items as [| x rest IH]; [left; constructor |].
  destruct (has_id_cases id x) as [T | [F | N]].
  - right; left. exists [], x, rest. repeat split; [constructor | exact T].
  - destruct IH as [A | [(pre & t & post & E & A & T) | (pre & post & E & A)]].
    + left. constructor; assumption.
    + right; left. exists (x :: pre), t, post. rewrite E.
      repeat split; [constructor; assumption | exact T].
    + right; right. exists (x :: pre), post. rewrite E.
      split; [reflexivity | constructor; assumption].
  - right; right. exists [], rest. rewrite N. split; [reflexivity | constructor].
Qed.

Lemma splice1_app (pre : list json) t post :
  splice1 (List.length pre) (pre ++ t :: post)%list = (pre ++ post)%list.
Proof.
  unfold splice1. induction pre as [| x pre IH]; [reflexivity |].
  cbn [List.length firstn app]. rewrite skipn_cons.
  cbn [app]. f_equal. exact IH.
Qed.

Lemma loadTraces_cached t w : t <> JNull -> loadTraces t w = t.
Proof. destruct t; intros H; try reflexivity. congruence. Qed.

(** A first load after a write the storage took. *)
Lemma load_after_save_traces t w :
  ls_available w = true ->
  (String.length (JSON_stringify_value t) <= ls_quota w)%nat ->
  JSON_stringify_value t <> "" ->
  JSON_parse (JSON_stringify_value t) = Ret t ->
  loadTraces JNull (saveTraces t w) = t.
Proof.
  intros A Q N P. unfold Traces.saveTraces, Traces.loadTraces, setItem, getItem.
  rewrite A. apply Nat.leb_le in Q. rewrite Q.
  cbn [andb snd ls_available ls_items bind].
  rewrite RevealMore.lookup_store_same.
  destruct (JSON_stringify_value t) as [| c text]; [congruence |].
  rewrite P. reflexivity.
Qed.

(** A first load after a write the storage refused. *)
Lemma load_after_refused_save t w :
  ls_available w = false \/
  (ls_quota w < String.length (JSON_stringify_value t))%nat ->
  loadTraces JNull (saveTraces t w) = loadTraces JNull w.
Proof.
  intros H. unfold Traces.saveTraces, Traces.loadTraces, setItem, getItem.
  destruct H as [A | Q].
  - rewrite A. reflexivity.
  - destruct (ls_available w); [| reflexivity]. cbn [andb].
    destruct (Nat.leb_spec (String.length (JSON_stringify_value t))
                (ls_quota w)); [lia |].
    reflexivity.
Qed.

(** X17.  A trace added under an identifier that no trace of the list has
    is removed again by [deleteTrace] of that identifier: the list is back
    to what it was, neither call throws, and the storage was written twice,
    with the longer list and then with the old one. *)
Theorem addTrace_then_deleteTrace
  id createdAt lat lng text category cache w items :
  loadTraces cache w = JArr items ->
  Forall (other_id id) items ->
  let added := addTrace id createdAt lat lng text category cache w in
  let removed := deleteTrace id (snd (fst added)) (snd added) in
  (exists trace,
     fst (fst added) = Ret trace /\
     snd (fst added) = JArr (items ++ [trace]) /\
     has_id id trace = Ret true /\
     ls_setItem_calls (snd removed) =
     (ls_setItem_calls w ++
      [ (TRACES_KEY, JSON_stringify_value (JArr (items ++ [trace])));
        (TRACES_KEY, JSON_stringify_value (JArr items)) ])%list) /\
  fst (fst removed) = Ret tt /\
  snd (fst removed) = JArr items.
Proof.
  intros L F. cbv zeta. unfold Traces.addTrace. rewrite L. cbn [push fst snd].
  set (trace := make_trace id createdAt lat lng text _).
  assert (has_id id trace = Ret true) as T.
  { unfold trace, make_trace. cbn. now rewrite String.eqb_refl. }
  unfold Traces.deleteTrace. cbn [Traces.loadTraces].
  rewrite (findIndex_first id items trace [] F T).
  rewrite splice1_app, app_nil_r. cbn [fst snd].
  split; [| split; reflexivity].
  exists trace. repeat split; [exact T |].
  unfold Traces.saveTraces, setItem.
  repeat match goal with
         | |- context [if ?b then _ else _] => destruct b
         end;
    cbn [snd ls_setItem_calls ls_available ls_quota ls_items];
    rewrite <- List.app_assoc; reflexivity.
Qed.

(** X18.  [deleteTrace] on a loaded list, by the shape of the list, and
    every list has one of the three shapes.  When no element has the
    identifier, nothing changes and the storage is not written.  Otherwise
    the first element with the identifier is removed, the others keep their
    order, and the list is saved.  A [null] element before the first match
    makes the call throw with nothing changed.  A loaded value that is not
    an array makes it throw as well. *)
Theorem deleteTrace_cases id items w :
  (Forall (other_id id) items ->
   deleteTrace id (JArr items) w = (Ret tt, JArr items, w)) /\
  (forall pre t post,
     items = (pre ++ t :: post)%list ->
     Forall (other_id id) pre -> has_id id t = Ret true ->
     deleteTrace id (JArr items) w =
     (Ret tt, JArr (pre ++ post), saveTraces (JArr (pre ++ post)) w)) /\
  (forall pre post,
     items = (pre ++ JNull :: post)%list ->
     Forall (other_id id) pre ->
     deleteTrace id (JArr items) w = (Throw, JArr items, w)) /\
  (Forall (other_id id) items \/
   (exists pre t post,
      items = (pre ++ t :: post)%list /\ Forall (other_id id) pre /\
      has_id id t = Ret true) \/
   (exists pre post,
      items = (pre ++ JNull :: post)%list /\ Forall (other_id id) pre)) /\
  (forall v,
     match v with
     | JNull | JArr _ => True
     | _ => deleteTrace id v w = (Throw, v, w)
     end).
Proof.
  unfold Traces.deleteTrace. cbn [Traces.loadTraces].
  split; [intros F; now rewrite (findIndex_none id items F) |].
  split.
  - intros pre t post -> F T.
    rewrite (findIndex_first id pre t post F T), splice1_app. reflexivity.
  - split.
    + intros pre post -> F. now rewrite (findIndex_throw id pre post F).
    + split; [apply findIndex_shapes |].
      intros v. destruct v; try exact I; reflexivity.
Qed.

(** X19.  The module's cache.  Once [loadTraces] has returned something
    other than [null], every later call returns that value whatever the
    storage holds by then; the storage is read only while the cache is
    [null].  That first load gives the empty list when the storage cannot
    be read, has no entry, has an empty one or one that is not JSON, and
    whatever [JSON.parse] gives otherwise, array or not. *)
Theorem loadTraces_cache (cache : json) (w : World) :
  (forall w', loadTraces cache w <> JNull ->
              loadTraces (loadTraces cache w) w' = loadTraces cache w) /\
  (cache <> JNull -> loadTraces cache w = cache) /\
  (ls_available w = false -> loadTraces JNull w = JArr []) /\
  (ls_available w = true ->
   match lookup TRACES_KEY (ls_items w) with
   | None => loadTraces JNull w = JArr []
   | Some text =>
       (text = "" -> loadTraces JNull w = JArr []) /\
       (JSON_parse text = Throw -> loadTraces JNull w = JArr []) /\
       (forall v, text <> "" -> JSON_parse text = Ret v ->
                  loadTraces JNull w = v)
   end).
Proof.
  split; [intros w' H; now apply loadTraces_cached |].
  split; [apply loadTraces_cached |].
  unfold Traces.loadTraces, getItem.
  split; [intros ->; reflexivity |].
  intros ->. cbn [bind].
  destruct (lookup TRACES_KEY (ls_items w)) as [[| c text] |];
    [| | reflexivity].
  - repeat split; try reflexivity. intros v H. congruence.
  - split; [discriminate |]. split; [intros ->; reflexivity |].
    intros v _ ->. reflexivity.
Qed.

(** X20.  After a [deleteTrace] that removed a trace and whose write the
    storage took, the list in memory and the stored one agree: a new
    session, whose cache is [null], loads the list without the trace,
    provided [JSON.parse] reads back what [JSON.stringify] wrote. *)
Theorem deleteTrace_then_restart id cache w pre t post :
  loadTraces cache w = JArr (pre ++ t :: post) ->
  Forall (other_id id) pre ->
  has_id id t = Ret true ->
  ls_available w = true ->
  (String.length (JSON_stringify_value (JArr (pre ++ post)))
   <= ls_quota w)%nat ->
  JSON_stringify_value (JArr (pre ++ post)) <> "" ->
  JSON_parse (JSON_stringify_value (JArr (pre ++ post)))
    = Ret (JArr (pre ++ post)) ->
  let r := deleteTrace id cache w in
  snd (fst r) = JArr (pre ++ post) /\
  loadTraces JNull (snd r) = JArr (pre ++ post).
Proof.
  intros L F T A Q N P. cbv zeta. unfold Traces.deleteTrace. rewrite L.
  rewrite (findIndex_first id pre t post F T), splice1_app. cbn [fst snd].
  split; [reflexivity |]. now apply load_after_save_traces.
Qed.

(** X21.  [addTrace] on what [loadTraces] gives.  On an array the trace
    goes to the end of the list and is returned, with the category [note]
    when none is given, and the list is saved: a new session loads the
    longer list when the storage took the write and [JSON.parse] reads it
    back, and still loads the old stored value, without the trace, when the
    storage refused the write, of which the caller learns nothing.  On a
    value that is not an array, as a corrupt entry can leave in the cache,
    [addTrace] throws and writes nothing. *)
Theorem addTrace_cases id createdAt lat lng text category cache w :
  let trace :=
    make_trace id createdAt lat lng text
      (match category with Some c => c | None => "note" end) in
  let r := addTrace id createdAt lat lng text category cache w in
  match loadTraces cache w with
  | JArr items =>
      let traces := JArr (items ++ [trace]) in
      r = (Ret trace, traces, saveTraces traces w) /\
      (ls_available w = true ->
       (String.length (JSON_stringify_value traces) <= ls_quota w)%nat ->
       JSON_stringify_value traces <> "" ->
       JSON_parse (JSON_stringify_value traces) = Ret traces ->
       loadTraces JNull (snd r) = traces) /\
      (ls_available w = false \/
       (ls_quota w < String.length (JSON_stringify_value traces))%nat ->
       loadTraces JNull (snd r) = loadTraces JNull w)
  | loaded => r = (Throw, loaded, w)
  end.
Proof.
  cbv zeta. unfold Traces.addTrace.
  destruct (loadTraces cache w) as [| b | q | s | items | fields];
    cbn [push]; try reflexivity.
  split; [reflexivity |]. cbn [snd].
  split; [apply load_after_save_traces | apply load_after_refused_save].
Qed.

End Store.

Lemma addTrace_then_deleteTrace_witness :
  let added :=
    addTrace stringify_array_ref parse_ref "lk3x9a0f" 1700000000000
      lat0 lng0 "bench with a view" None JNull empty_world in
  let removed :=
    deleteTrace stringify_array_ref parse_ref "lk3x9a0f"
      (snd (fst added)) (snd added) in
  (exists trace,
     fst (fst added) = Ret trace /\
     snd (fst added) = JArr ([] ++ [trace]) /\
     has_id "lk3x9a0f" trace = Ret true /\
     ls_setItem_calls (snd removed) =
     (ls_setItem_calls empty_world ++
      [ (TRACES_KEY, stringify_array_ref (JArr ([] ++ [trace])));
        (TRACES_KEY, stringify_array_ref (JArr [])) ])%list) /\
  fst (fst removed) = Ret tt /\
  snd (fst removed) = JArr [].
Proof.
  apply (addTrace_then_deleteTrace stringify_array_ref parse_ref
           "lk3x9a0f" 1700000000000 lat0 lng0 "bench with a view" None
           JNull empty_world []).
  - reflexivity.
  - constructor.
Defined.

Lemma deleteTrace_then_restart_witness :
  let r :=
    deleteTrace stringify_array_ref parse_ref "lk3x9a0f"
      (JArr [sample_trace]) empty_world in
  snd (fst r) = JArr ([] ++ []) /\
  loadTraces parse_ref JNull (snd r) = JArr ([] ++ []).
Proof.
  apply (deleteTrace_then_restart stringify_array_ref parse_ref
           "lk3x9a0f" (JArr [sample_trace]) empty_world [] sample_trace []).
  - reflexivity.
  - constructor.
  - reflexivity.
  - reflexivity.
  - vm_compute. repeat constructor.
  - discriminate.
  - reflexivity.
Defined.

End TraceFacts.
